(** * NodeIRScheduler: resource-constrained list scheduling of an ONNX graph

    Shallow embedding of [lib/Analysis/NodeIRScheduler.cpp] and the
    properties of its resource ledger, readiness tracking and main loop. *)

From Stdlib Require Import ZArith Lia.
From stdpp Require Import base option list numbers strings gmap fin_maps.

(** ** Machine integers

    [unsigned] is a 32-bit word; arithmetic on it wraps modulo [2^32]. *)

Definition UINT_MAX : Z := (2 ^ 32 - 1)%Z.

Definition to_unsigned (z : Z) : Z := (z mod 2 ^ 32)%Z.

(** ** Pointers

    [onnx::Node*], [onnx::Value*] and [const ExeResource*] are addresses;
    two pointers are the same object exactly when the addresses agree. *)

Abbreviation NodePtr := nat (only parsing).
Abbreviation ValuePtr := nat (only parsing).
Abbreviation ExeResPtr := nat (only parsing).

(** ** The cost model ([m_DLATB->getTTI()])

    The target headers are not part of this translation unit.  The scheduler
    uses two queries of [TargetTransformInfo] and one field of the
    [ExeResource] a query returns; [numUnits] is that field, read through the
    pointer, taken as an unsigned count. *)

Record DLATargetBackend := mkBackend {
  getOperatorCost : NodePtr → Z;          (* with metric kCycleCount *)
  queryExeResType : NodePtr → ExeResPtr;
  numUnits : ExeResPtr → N
}.

(** ** The resource ledger ([m_ExeResUsers]) *)

Record ExeResUser := mkUser {
  user_node : NodePtr;
  remainCycles : Z
}.

Abbreviation Ledger := (gmap nat (list ExeResUser)) (only parsing).

Section Ledger.
Context (m_DLATB : DLATargetBackend).

(** [m_ExeResUsers.find(pExeRes)->second.size() < pExeRes->numUnits].
    Dereferencing [end()] is undefined: [None]. *)
Definition isExeResAvailable (m_ExeResUsers : Ledger) (pExeRes : ExeResPtr)
  : option bool :=
  userList ← m_ExeResUsers !! pExeRes;
  Some (bool_decide (N.of_nat (length userList) < numUnits m_DLATB pExeRes)%N).

(** [int c = getOperatorCost(..); m_ExeResUsers[pExeRes].emplace_back(pUser, c)];
    [operator[]] creates the entry when it is absent, and the [int] cost
    becomes the [unsigned] remaining-cycle count. *)
Definition addExeResUser (m_ExeResUsers : Ledger) (pExeRes : ExeResPtr)
    (pUser : NodePtr) : Ledger :=
  let c := getOperatorCost m_DLATB pUser in
  <[pExeRes := default [] (m_ExeResUsers !! pExeRes) ++ [mkUser pUser (to_unsigned c)]]>
    m_ExeResUsers.
End Ledger.

(** *** [updateResList] *)

(** First loop: the minimum over every user of every resource. *)
Definition minCycleOfList (acc : Z) (userList : list ExeResUser) : Z :=
  foldl (λ minCycle u, Z.min minCycle (remainCycles u)) acc userList.

Definition findMinCycle (m_ExeResUsers : Ledger) : Z :=
  map_fold (λ _ userList minCycle, minCycleOfList minCycle userList)
           UINT_MAX m_ExeResUsers.

(** Body of [for (unsigned i = 0; i < userList.size(); ++i)]. *)
Definition subtractAt (minCycle : Z) (st : list ExeResUser * list nat) (i : nat)
  : list ExeResUser * list nat :=
  let '(userList, rmList) := st in
  match userList !! i with
  | None => st
  | Some u =>
      let u' := mkUser (user_node u) (to_unsigned (remainCycles u - minCycle)) in
      (<[i := u']> userList,
       if decide (remainCycles u' = 0%Z) then rmList ++ [i] else rmList)
  end.

(** [for (int i = rmList.size() - 1; i >= 0; --i) userList.erase(userList.begin() + i)]:
    the loop counter itself is the erased position. *)
Fixpoint releaseLoop (count : nat) (userList : list ExeResUser) : list ExeResUser :=
  match count with
  | O => userList
  | S i => releaseLoop i (delete i userList)
  end.

Definition updateUserList (minCycle : Z) (userList : list ExeResUser)
  : list ExeResUser :=
  let '(userList', rmList) :=
    foldl (subtractAt minCycle) (userList, []) (seq 0 (length userList)) in
  releaseLoop (length rmList) userList'.

Definition updateResList (m_ExeResUsers : Ledger) : Ledger * Z :=
  let minCycle := findMinCycle m_ExeResUsers in
  (updateUserList minCycle <$> m_ExeResUsers, minCycle).

(** *** [greedyPickNextNodes] *)

Record PickState := mkPick {
  pick_users : Ledger;          (* m_ExeResUsers *)
  pick_next : list NodePtr;     (* next *)
  pick_rmList : list nat        (* rmList *)
}.

Section Pick.
Context (m_DLATB : DLATargetBackend).

(** "initialize entry with empty user":
    [if (m_ExeResUsers.find(res) == m_ExeResUsers.end()) m_ExeResUsers[res] = {}]. *)
Definition initEntry (m_ExeResUsers : Ledger) (res : ExeResPtr) : Ledger :=
  if decide (m_ExeResUsers !! res = None)
  then <[res := []]> m_ExeResUsers else m_ExeResUsers.

(** Body of [for (unsigned i = 0; i < pCands.size(); ++i)]. *)
Definition pickAt (pCands : list NodePtr) (st : PickState) (i : nat)
  : option PickState :=
  n ← pCands !! i;
  let res := queryExeResType m_DLATB n in
  let users := initEntry (pick_users st) res in
  avail ← isExeResAvailable m_DLATB users res;
  if (avail : bool)
  then Some (mkPick (addExeResUser m_DLATB users res n)
                    (pick_next st ++ [n]) (pick_rmList st ++ [i]))
  else Some (mkPick users (pick_next st) (pick_rmList st)).

Definition pickLoop (pCands : list NodePtr) (st : PickState) (idx : list nat)
  : option PickState :=
  foldl (λ acc i, acc ≫= λ s, pickAt pCands s i) (Some st) idx.

(** [for (auto it = rmList.rbegin(); it != rmList.rend(); ++it)
       pCands.erase(pCands.begin() + *it)]. *)
Definition eraseAll (rmList : list nat) (pCands : list NodePtr) : list NodePtr :=
  foldl (λ cands i, delete i cands) pCands (reverse rmList).

(** Result: the returned [next], the mutated [pCands], the mutated ledger. *)
Definition greedyPickNextNodes (m_ExeResUsers : Ledger) (pCands : list NodePtr)
  : option (list NodePtr * list NodePtr * Ledger) :=
  st ← pickLoop pCands (mkPick m_ExeResUsers [] []) (seq 0 (length pCands));
  Some (pick_next st, eraseAll (pick_rmList st) pCands, pick_users st).
End Pick.

(** The admission pass in the words of its description: one scan from left to
    right; a candidate whose resource class has a free unit when it is reached
    becomes a user of it and goes to the admitted list, any other candidate
    stays, and the class has an entry from its first reference on.
    [admitPass m cands next kept m'] relates the ledger and candidates before
    the pass to the admitted nodes, the remaining candidates and the ledger
    after it. *)
Section AdmitPass.
Context (m_DLATB : DLATargetBackend).

Definition hasFreeUnit (m : Ledger) (res : ExeResPtr) : Prop :=
  (N.of_nat (length (default [] (m !! res))) < numUnits m_DLATB res)%N.

#[global] Instance hasFreeUnit_dec m res : Decision (hasFreeUnit m res) :=
  decide (N.of_nat (length (default [] (m !! res))) < numUnits m_DLATB res)%N.

Inductive admitPass
  : Ledger → list NodePtr → list NodePtr → list NodePtr → Ledger → Prop :=
| admit_done m : admitPass m [] [] [] m
| admit_take m n cands next kept m' :
    hasFreeUnit m (queryExeResType m_DLATB n) →
    admitPass (addExeResUser m_DLATB m (queryExeResType m_DLATB n) n)
              cands next kept m' →
    admitPass m (n :: cands) (n :: next) kept m'
| admit_skip m n cands next kept m' :
    ¬ hasFreeUnit m (queryExeResType m_DLATB n) →
    admitPass (initEntry m (queryExeResType m_DLATB n)) cands next kept m' →
    admitPass m (n :: cands) next (n :: kept) m'.
End AdmitPass.

(** No resource class in the ledger has more users than units. *)
Definition withinCapacity (m_DLATB : DLATargetBackend) (m : Ledger) : Prop :=
  ∀ res userList,
    m !! res = Some userList →
    (N.of_nat (length userList) ≤ numUnits m_DLATB res)%N.

(** ** The graph IR

    [onnx::Graph] is an external data structure: nodes and values live in the
    graph's arena and are reached through pointers.  [nodes] is what
    [pGraph.nodes()] iterates, in graph order; the terminal node [return_node]
    closes that order and is not among them. *)

Abbreviation Symbol := string (only parsing).

Definition kUndefined : Symbol := "Undefined".
Definition kReturn : Symbol := "Return".

Record Use := mkUse {
  user : NodePtr;
  offset : nat
}.

Record Node := mkNode {
  kind : Symbol;
  inputs : list ValuePtr;
  outputs : list ValuePtr
}.

Record Value := mkValue {
  uniqueName : string;
  node : option NodePtr;      (* [None] is [nullptr] *)
  uses : list Use;
  elemType : nat;
  sizes : list Z
}.

Record Graph := mkGraph {
  nodes : list NodePtr;
  return_node : NodePtr;
  graph_inputs : list ValuePtr;
  node_at : NodePtr → Node;
  value_at : ValuePtr → Value;
  next_node : NodePtr;        (* next free node address *)
  next_value : ValuePtr       (* next free value address *)
}.

(** [pGraph.outputs()] are the inputs of the terminal node. *)
Definition graph_outputs (g : Graph) : list ValuePtr :=
  inputs (node_at g (return_node g)).

Definition set_node (g : Graph) (p : NodePtr) (n : Node) : Graph :=
  mkGraph (nodes g) (return_node g) (graph_inputs g)
          (λ q, if decide (q = p) then n else node_at g q)
          (value_at g) (next_node g) (next_value g).

Definition set_value (g : Graph) (p : ValuePtr) (v : Value) : Graph :=
  mkGraph (nodes g) (return_node g) (graph_inputs g)
          (node_at g)
          (λ q, if decide (q = p) then v else value_at g q)
          (next_node g) (next_value g).

Definition set_nodes (g : Graph) (l : list NodePtr) : Graph :=
  mkGraph l (return_node g) (graph_inputs g)
          (node_at g) (value_at g) (next_node g) (next_value g).

(** Modelled from the spec: the IR's own operations ([isBefore], [create],
    [insertBefore], [copyMetadata], [replaceAllUsesWith]) are outside this
    file.  Graph order is the position in [nodes] followed by the terminal
    node; a created node has one fresh output unless inputs are given, and
    each given input records the new use. *)

Definition position (g : Graph) (n : NodePtr) : option nat :=
  fst <$> list_find (λ q, q = n) (nodes g ++ [return_node g]).

Definition isBefore (g : Graph) (a b : NodePtr) : bool :=
  match position g a, position g b with
  | Some i, Some j => bool_decide (i < j)
  | _, _ => false
  end.

Definition addUse (g : Graph) (n : NodePtr) (i : nat) (v : ValuePtr) : Graph :=
  let old := value_at g v in
  set_value g v (mkValue (uniqueName old) (node old) (uses old ++ [mkUse n i])
                         (elemType old) (sizes old)).

Definition create (g : Graph) (k : Symbol) (ins : list ValuePtr)
  : Graph * NodePtr :=
  let n := next_node g in
  let out := next_value g in
  let g1 := mkGraph (nodes g) (return_node g) (graph_inputs g)
                    (node_at g) (value_at g) (S n) (S out) in
  let g2 := set_node g1 n (mkNode k ins [out]) in
  let g3 := set_value g2 out (mkValue "" (Some n) [] 0 []) in
  (foldl (λ h '(i, v), addUse h n i v) g3 (imap (λ i v, (i, v)) ins), n).

Definition output (g : Graph) (n : NodePtr) : option ValuePtr :=
  head (outputs (node_at g n)).

(** [n->insertBefore(target)]; a null or unlisted target is undefined. *)
Definition insertBefore (g : Graph) (n : NodePtr) (target : option NodePtr)
  : option Graph :=
  t ← target;
  i ← position g t;
  Some (set_nodes g (take i (nodes g) ++ n :: drop i (nodes g))).

Definition copyMetadata (g : Graph) (to from : ValuePtr) : Graph :=
  let old := value_at g to in
  let src := value_at g from in
  set_value g to (mkValue (uniqueName old) (node old) (uses old)
                          (elemType src) (sizes src)).

Definition replaceInput (g : Graph) (u : Use) (v : ValuePtr) : Graph :=
  let n := node_at g (user u) in
  set_node g (user u) (mkNode (kind n) (<[offset u := v]> (inputs n)) (outputs n)).

Definition replaceAllUsesWith (g : Graph) (v newValue : ValuePtr) : Graph :=
  let g1 := foldl (λ h u, addUse (replaceInput h u newValue) (user u) (offset u) newValue)
                  g (uses (value_at g v)) in
  let old := value_at g1 v in
  set_value g1 v (mkValue (uniqueName old) (node old) [] (elemType old) (sizes old)).

(** ** Boundary normalisation *)

(** [pGraph.nodes().rbegin()->kind() == onnx::Symbol("Store")]; the reverse
    iteration of an empty node list starts at the terminal node. *)
Definition HasInsertedLoadStoreNode (pGraph : Graph) : bool :=
  bool_decide (kind (node_at pGraph (default (return_node pGraph) (last (nodes pGraph))))
               = "Store").

(** The scan [for (auto u : v->uses())] that keeps the earliest user. *)
Definition firstUser (g : Graph) (us : list Use) : option NodePtr :=
  foldl (λ first u,
           match first with
           | None => Some (user u)
           | Some f => if negb (isBefore g f (user u)) then Some (user u) else Some f
           end) None us.

(** The scan that keeps the latest user. *)
Definition lastUser (g : Graph) (us : list Use) : option NodePtr :=
  foldl (λ last u,
           match last with
           | None => Some (user u)
           | Some l => if isBefore g l (user u) then Some (user u) else Some l
           end) None us.

Definition insertLoad (g : Graph) (v : ValuePtr) : option Graph :=
  let first := firstUser g (uses (value_at g v)) in
  let '(g1, loadN) := create g "Load" [] in
  g2 ← insertBefore g1 loadN first;
  out ← output g2 loadN;
  let g3 := copyMetadata g2 out v in
  Some (replaceAllUsesWith g3 v out).

Definition insertStore (g : Graph) (v : ValuePtr) : option Graph :=
  let last := lastUser g (uses (value_at g v)) in
  let '(g1, storeN) := create g "Store" [v] in
  out ← output g1 storeN;
  let g2 := copyMetadata g1 out v in
  insertBefore g2 storeN last.

Definition InsertLoadStoreNode (pGraph : Graph) : option Graph :=
  g1 ← foldl (λ acc v, acc ≫= λ g, insertLoad g v) (Some pGraph) (graph_inputs pGraph);
  foldl (λ acc v, acc ≫= λ g, insertStore g v) (Some g1) (graph_outputs g1).

(** ** Readiness tracking *)

Abbreviation DegreeMap := (gmap nat Z) (only parsing).

Definition warning (g : Graph) (n : NodePtr) (v : ValuePtr) : string :=
  "Warning! " +:+ kind (node_at g n) +:+ " use a value = "
  +:+ uniqueName (value_at g v) +:+ ", which doen't bind to a node".

(** Body of [for (onnx::Value *v : n->inputs())]: state is [degcnt] and the
    output stream. *)
Definition countInput (g : Graph) (n : NodePtr) (st : Z * list string) (v : ValuePtr)
  : Z * list string :=
  let '(degcnt, outs) := st in
  match node (value_at g v) with
  | None => (to_unsigned (degcnt - 1), outs ++ [warning g n v])
  | Some _ => st
  end.

Definition degreeOf (g : Graph) (st : DegreeMap * list string) (n : NodePtr)
  : DegreeMap * list string :=
  let '(dmap, outs) := st in
  if decide (kind (node_at g n) = kUndefined) then st
  else
    let degcnt := to_unsigned (Z.of_nat (length (inputs (node_at g n)))) in
    let '(degcnt', outs') :=
      foldl (countInput g n) (degcnt, outs) (inputs (node_at g n)) in
    (<[n := degcnt']> dmap, outs').

Definition BuildDegreeMap (pGraph : Graph) : DegreeMap * list string :=
  foldl (degreeOf pGraph) (∅, []) (nodes pGraph).

(** ** The scheduling loop of [runOnModule] *)

(** The locals [dmap] and [worklist] together with the ledger.  [pushed] and
    [admitted] are history variables: every [worklist.push_back] is mirrored
    in [pushed], every node returned by [greedyPickNextNodes] in [admitted]. *)
Record SchedState := mkSched {
  m_ExeResUsers : Ledger;
  dmap : DegreeMap;
  worklist : list NodePtr;
  pushed : list NodePtr;
  admitted : list NodePtr
}.

Section Schedule.
Context (m_DLATB : DLATargetBackend) (graph : Graph).

(** "add degree = 0 to worklist in graph order"; [dmap[n]] creates a
    zero entry when the key is absent. *)
Definition seedAt (st : DegreeMap * list NodePtr) (n : NodePtr)
  : DegreeMap * list NodePtr :=
  let '(dm, wl) := st in
  if decide (kind (node_at graph n) = kUndefined) then st
  else
    let dm' := if decide (dm !! n = None) then <[n := 0%Z]> dm else dm in
    if decide (dm' !! n = Some 0%Z) then (dm', wl ++ [n]) else (dm', wl).

Definition seedWorklist (dm : DegreeMap) : DegreeMap * list NodePtr :=
  foldl seedAt (dm, []) (nodes graph).

(** Body of [for (auto u : v->uses())]; the failed [assert] is [None]. *)
Definition propagateUse (acc : option (DegreeMap * list NodePtr * list NodePtr))
    (u : Use) : option (DegreeMap * list NodePtr * list NodePtr) :=
  '(dm, wl, ps) ← acc;
  if decide (kind (node_at graph (user u)) = kReturn) then Some (dm, wl, ps)
  else
    d ← dm !! user u;
    let d' := to_unsigned (d - 1) in
    let dm' := <[user u := d']> dm in
    if decide (d' = 0%Z) then Some (dm', wl ++ [user u], ps ++ [user u])
    else Some (dm', wl, ps).

(** Body of [for (onnx::Value *v : n->outputs())]. *)
Definition propagateValue (acc : option (DegreeMap * list NodePtr * list NodePtr))
    (v : ValuePtr) : option (DegreeMap * list NodePtr * list NodePtr) :=
  foldl propagateUse acc (uses (value_at graph v)).

(** Body of [for (onnx::Node *n : greedyPickNextNodes(worklist))]. *)
Definition propagateNode (acc : option (DegreeMap * list NodePtr * list NodePtr))
    (n : NodePtr) : option (DegreeMap * list NodePtr * list NodePtr) :=
  foldl propagateValue acc (outputs (node_at graph n)).

(** One iteration of [while (!worklist.empty())]. *)
Definition round (st : SchedState) : option SchedState :=
  '(next, wl, users) ← greedyPickNextNodes m_DLATB (m_ExeResUsers st) (worklist st);
  '(dm, wl', ps) ← foldl propagateNode (Some (dmap st, wl, pushed st)) next;
  Some (mkSched users dm wl' ps (admitted st ++ next)).

Inductive LoopResult :=
| Finished (st : SchedState)
| AssertFailed
| OutOfFuel.

Fixpoint scheduleLoop (fuel : nat) (st : SchedState) : LoopResult :=
  match worklist st with
  | [] => Finished st
  | _ :: _ =>
      match fuel with
      | O => OutOfFuel
      | S fuel' =>
          match round st with
          | None => AssertFailed
          | Some st' => scheduleLoop fuel' st'
          end
      end
  end.

(** The states the loop passes through at the top of the [while]. *)
Inductive reaches : SchedState → SchedState → Prop :=
| reaches_here st : reaches st st
| reaches_round st st' st'' :
    worklist st ≠ [] → round st = Some st' → reaches st' st'' → reaches st st''.

(** State on entry to the [while]: ledger as given, fresh [dmap] and
    seeded [worklist]. *)
Definition initSched (users : Ledger) : SchedState * list string :=
  let '(dm, outs) := BuildDegreeMap graph in
  let '(dm', wl) := seedWorklist dm in
  (mkSched users dm' wl wl [], outs).
End Schedule.

(** ** [runOnModule] *)

Inductive ReturnType := kPassFailure | kModuleNoChanged | kModuleChanged.

Record PassState := mkPass {
  pass_DLATB : option DLATargetBackend;    (* m_DLATB, [None] is null *)
  pass_ExeResUsers : Ledger;               (* m_ExeResUsers *)
  pass_graph : Graph;                      (* *pModule.getGraph() *)
  pass_outs : list string;                 (* outs() *)
  pass_errs : list string                  (* errs() *)
}.

(** Modelled from the spec: [clear()] is declared in the header, which is not
    in this file; the ledger is "scratch state created fresh per scheduling
    run", so it empties [m_ExeResUsers]. *)
Definition clear (p : PassState) : PassState :=
  mkPass (pass_DLATB p) ∅ (pass_graph p) (pass_outs p) (pass_errs p).

Inductive Outcome :=
| Returns (r : ReturnType) (p : PassState)
| Undefined                                 (* null or failed-assert path *)
| Diverges.                                 (* the fuel ran out *)

(** [if (!HasInsertedLoadStoreNode(graph)); InsertLoadStoreNode(graph);]:
    the [if] controls the empty statement that the semicolon ends, and the
    call follows it unconditionally. *)
Definition normalize (graph : Graph) : option Graph :=
  let _ := if negb (HasInsertedLoadStoreNode graph) then tt else tt in
  InsertLoadStoreNode graph.

Definition runOnModule (fuel : nat) (p : PassState) : Outcome :=
  match pass_DLATB p with
  | None =>
      Returns kPassFailure
        (mkPass (pass_DLATB p) (pass_ExeResUsers p) (pass_graph p) (pass_outs p)
                (pass_errs p ++
                 ["No backend infomation that is needed for memory allcation."]))
  | Some tb =>
      let p1 := clear p in
      match normalize (pass_graph p1) with
      | None => Undefined
      | Some graph =>
          let '(st, outs) := initSched graph (pass_ExeResUsers p1) in
          match scheduleLoop tb graph fuel st with
          | Finished st' =>
              Returns kModuleNoChanged
                (mkPass (pass_DLATB p) (m_ExeResUsers st') graph
                        (pass_outs p1 ++ outs) (pass_errs p1))
          | AssertFailed => Undefined
          | OutOfFuel => Diverges
          end
      end
  end.

(** ** Vocabulary of the properties *)

(** One user after [minCycle] cycles have passed:
    [userList[i].remainCycles -= minCycle]. *)
Definition elapse (minCycle : Z) (u : ExeResUser) : ExeResUser :=
  mkUser (user_node u) (to_unsigned (remainCycles u - minCycle)).

(** A user whose remaining count is zero. *)
Abbreviation finished := (λ u : ExeResUser, remainCycles u = 0%Z) (only parsing).

(** The inputs of [n] that no node produces ([v->node() == nullptr]). *)
Definition danglingInputs (g : Graph) (n : NodePtr) : list ValuePtr :=
  filter (λ v, node (value_at g v) = None) (inputs (node_at g n)).

(** What [degreeOf] stores for a node that is not the undefined sentinel. *)
Definition storedDegree (g : Graph) (n : NodePtr) : Z :=
  to_unsigned (to_unsigned (Z.of_nat (length (inputs (node_at g n))))
               - Z.of_nat (length (danglingInputs g n))).

(** The warnings [BuildDegreeMap] writes while it visits [n]. *)
Definition warningsOf (g : Graph) (n : NodePtr) : list string :=
  if decide (kind (node_at g n) = kUndefined) then []
  else map (warning g n) (danglingInputs g n).

(** The effect of one use by a node that is not the terminal node. *)
Definition decrement (acc : option (gmap nat Z * list nat * list nat)) (u : nat)
  : option (gmap nat Z * list nat * list nat) :=
  '(dm, wl, ps) ← acc;
  d ← dm !! u;
  let d' := to_unsigned (d - 1) in
  let dm' := <[u := d']> dm in
  if decide (d' = 0%Z) then Some (dm', wl ++ [u], ps ++ [u]) else Some (dm', wl, ps).

(** How often [u] occurs in [l]. *)
Definition occurrences (u : nat) (l : list nat) : nat :=
  length (filter (λ x, x = u) l).

(** The users visited when [n] is propagated, in loop order, and those among
    them that are not the terminal node. *)
Definition consumers (g : Graph) (n : NodePtr) : list NodePtr :=
  flat_map (λ v, map user (uses (value_at g v))) (outputs (node_at g n)).

Definition demands (g : Graph) (n : NodePtr) : list NodePtr :=
  filter (λ u, kind (node_at g u) ≠ kReturn) (consumers g n).

(** An input still waited for: it has a producer and that producer is not
    among the nodes [A] already propagated. *)
Definition awaits (g : Graph) (A : list NodePtr) (v : ValuePtr) : Prop :=
  match node (value_at g v) with
  | Some p => p ∉ A
  | None => False
  end.

#[global] Instance awaits_dec g A v : Decision (awaits g A v).
Proof. unfold awaits. destruct (node (value_at g v)); apply _. Defined.

(** The number of inputs [u] still waits for. *)
Definition pending (g : Graph) (A : list NodePtr) (u : NodePtr) : nat :=
  length (filter (awaits g A) (inputs (node_at g u))).

(** The inputs of [u] that [n] produces. *)
Definition inputsFrom (g : Graph) (u n : NodePtr) : list ValuePtr :=
  filter (λ v, node (value_at g v) = Some n) (inputs (node_at g u)).

(** The IR's own guarantees that the scheduler relies on: the node list has
    no repetition, input counts fit [unsigned], and uses mirror inputs: [u]
    occurs among the users of [n]'s outputs as often as [u] has inputs
    produced by [n]. *)
Record wellFormed (g : Graph) : Prop := mkWellFormed {
  wf_nodup : NoDup (nodes g);
  wf_arity :
    Forall (λ u, (Z.of_nat (length (inputs (node_at g u))) < 2 ^ 32)%Z) (nodes g);
  wf_def_use :
    Forall (λ n, Forall (λ u, occurrences u (consumers g n)
                              = length (inputsFrom g u n))
                        (nodes g))
           (nodes g)
}.

(** The nodes [BuildDegreeMap] gives an entry. *)
Definition tracked (g : Graph) (u : NodePtr) : Prop :=
  u ∈ nodes g ∧ kind (node_at g u) ≠ kUndefined.

#[global] Instance tracked_dec g u : Decision (tracked g u).
Proof. unfold tracked. apply _. Defined.

(** What the degree map holds for a tracked node once the nodes [A] have been
    propagated: the inputs still waited for; uses by a terminal node are
    skipped, so its count stays what it was. *)
Definition expectedDegree (g : Graph) (A : list NodePtr) (u : NodePtr) : Z :=
  if decide (kind (node_at g u) = kReturn) then storedDegree g u
  else Z.of_nat (pending g A u).

(** Invariant of the propagation: no node was pushed twice, the degree map
    holds the expected count of every tracked node and nothing else, and the
    pushed nodes are the nodes whose count is zero. *)
Record schedInv (g : Graph) (dm : gmap nat Z) (ps A : list nat) : Prop := mkInv {
  inv_nodup : NoDup ps;
  inv_dmap : ∀ u, dm !! u = if decide (tracked g u)
                            then Some (expectedDegree g A u) else None;
  inv_pushed : ∀ u, u ∈ ps ↔ dm !! u = Some 0%Z
}.

(** Invariant at the top of the [while]: [schedInv], and the pushed nodes
    are the admitted ones and the queued ones. *)
Definition loopInv (g : Graph) (st : SchedState) : Prop :=
  schedInv g (dmap st) (pushed st) (admitted st)
  ∧ pushed st ≡ₚ admitted st ++ worklist st.

(** Every user of an output of a listed node is the terminal node or has an
    entry in the degree map, so the lookup behind the [assert] finds it. *)
Definition usesTracked (g : Graph) : Prop :=
  Forall (λ n, Forall (λ u, kind (node_at g u) = kReturn ∨ tracked g u)
                      (consumers g n))
         (nodes g).

(** Every resource class a listed node maps to has at least as many units as
    the graph has nodes. *)
Definition amplyProvisioned (m_DLATB : DLATargetBackend) (g : Graph) : Prop :=
  Forall (λ n, (N.of_nat (length (nodes g))
                ≤ numUnits m_DLATB (queryExeResType m_DLATB n))%N)
         (nodes g).

(** No resource class has more users than nodes were admitted so far. *)
Definition ledgerBound (st : SchedState) : Prop :=
  ∀ r, length (default [] (m_ExeResUsers st !! r)) ≤ length (admitted st).

(** The admission order respects the data flow: every producer of an input of
    an admitted node that is not the terminal node stands earlier in [A]. *)
Definition admittedOrdered (g : Graph) (A : list NodePtr) : Prop :=
  ∀ i n v p,
    A !! i = Some n → kind (node_at g n) ≠ kReturn →
    v ∈ inputs (node_at g n) → node (value_at g v) = Some p →
    ∃ j, j < i ∧ A !! j = Some p.

(** The producer of [v], if there is one, is among the first [i] listed nodes
    and is neither the undefined nor the terminal node. *)
Definition producedEarlier (g : Graph) (i : nat) (v : ValuePtr) : Prop :=
  match node (value_at g v) with
  | None => True
  | Some p => p ∈ take i (nodes g)
              ∧ kind (node_at g p) ≠ kUndefined ∧ kind (node_at g p) ≠ kReturn
  end.

#[global] Instance producedEarlier_dec g i v : Decision (producedEarlier g i v).
Proof. unfold producedEarlier. destruct (node (value_at g v)); apply _. Defined.

(** The node list is in topological order. *)
Definition producersFirst (g : Graph) : Prop :=
  Forall (λ iu : nat * nat,
            Forall (producedEarlier g iu.1) (inputs (node_at g iu.2)))
         (imap pair (nodes g)).

(** [h] has the node list, the terminal node, the inputs and the allocation
    counters of [g]; its arena may differ. *)
Definition sameLayout (g h : Graph) : Prop :=
  nodes h = nodes g ∧ return_node h = return_node g
  ∧ graph_inputs h = graph_inputs g
  ∧ next_node h = next_node g ∧ next_value h = next_value g.

(** The loop over the graph inputs in [InsertLoadStoreNode]. *)
Definition insertLoads (g : Graph) (vs : list ValuePtr) : option Graph :=
  foldl (λ acc v, acc ≫= λ h, insertLoad h v) (Some g) vs.

(** The loop over the graph outputs in [InsertLoadStoreNode]. *)
Definition insertStores (g : Graph) (vs : list ValuePtr) : option Graph :=
  foldl (λ acc v, acc ≫= λ h, insertStore h v) (Some g) vs.

(** Body of the loop in [replaceAllUsesWith]: the user's input slot is
    redirected to [nv] and the use is recorded there. *)
Definition rebind (nv : ValuePtr) (h : Graph) (u : Use) : Graph :=
  addUse (replaceInput h u nv) (user u) (offset u) nv.

(** [g'] is [g] with one new node of kind [k], at the next free address,
    put somewhere into the node list; nothing else of the list, the terminal
    node, the inputs or the kinds has changed. *)
Definition insertedOne (k : Symbol) (g g' : Graph) : Prop :=
  (∃ i, nodes g' = take i (nodes g) ++ next_node g :: drop i (nodes g))
  ∧ return_node g' = return_node g
  ∧ graph_inputs g' = graph_inputs g
  ∧ next_node g' = S (next_node g)
  ∧ ∀ n, kind (node_at g' n)
         = if decide (n = next_node g) then k else kind (node_at g n).

(** [g'] is [g] with [m] new nodes of kind [k] at the next [m] free
    addresses; the old nodes keep their order and their kinds. *)
Definition insertedMany (k : Symbol) (m : nat) (g g' : Graph) : Prop :=
  sublist (nodes g) (nodes g')
  ∧ nodes g' ≡ₚ nodes g ++ seq (next_node g) m
  ∧ return_node g' = return_node g
  ∧ graph_inputs g' = graph_inputs g
  ∧ next_node g' = next_node g + m
  ∧ (∀ n, n < next_node g → kind (node_at g' n) = kind (node_at g n))
  ∧ (∀ n, next_node g ≤ n < next_node g + m → kind (node_at g' n) = k).

(** Every admitted node is still a user of its resource class. *)
Definition ledgerHolds (m_DLATB : DLATargetBackend) (st : SchedState) : Prop :=
  ∀ n, n ∈ admitted st →
       mkUser n (to_unsigned (getOperatorCost m_DLATB n))
       ∈ default [] (m_ExeResUsers st !! queryExeResType m_DLATB n).

(** The number of free units of a resource class. *)
Definition freeUnits (m_DLATB : DLATargetBackend) (m : Ledger) (res : ExeResPtr)
  : nat :=
  N.to_nat (numUnits m_DLATB res) - length (default [] (m !! res)).

(** ** Concrete graphs used by the examples below *)

Module Scenario.
Definition noNode : Node := mkNode "" [] [].
Definition noValue : Value := mkValue "" None [] 0 [].

(** Two independent operators [A = 1] and [B = 2] that need the same
    resource class [R = 0] of one unit; every operator costs 5 cycles. *)
Definition A : NodePtr := 1.
Definition B : NodePtr := 2.
Definition R : ExeResPtr := 0.

Definition oneUnit : DLATargetBackend :=
  mkBackend (λ _, 5%Z) (λ _, R) (λ _, 1%N).

Definition graphAB : Graph :=
  mkGraph [A; B] 0 []
    (λ n, if decide (n = 0) then mkNode kReturn [] []
          else if decide (n = A) then mkNode "Conv" [] []
          else if decide (n = B) then mkNode "Relu" [] []
          else noNode)
    (λ _, noValue) 3 0.

(** The same cost model with ten units per resource class. *)
Definition tenUnits : DLATargetBackend :=
  mkBackend (λ _, 5%Z) (λ _, R) (λ _, 10%N).

Definition passAB : PassState := mkPass (Some oneUnit) ∅ graphAB [] [].

(** The loop state after the first round on [graphAB]. *)
Definition afterRound1 : SchedState :=
  mkSched {[ R := [mkUser A 5] ]} {[ A := 0%Z; B := 0%Z ]} [B] [A; B] [A].

(** One operator [1] whose output [7] is the graph's only output. *)
Definition graphOut : Graph :=
  mkGraph [1] 0 []
    (λ n, if decide (n = 0) then mkNode kReturn [7] []
          else if decide (n = 1) then mkNode "Conv" [] [7]
          else noNode)
    (λ v, if decide (v = 7) then mkValue "a" (Some 1) [mkUse 0 0] 1 [2%Z]
          else noValue)
    2 8.

(** [graphOut] after one normalisation: the Store node [2] is last. *)
Definition graphOutStored : Graph := default graphOut (normalize graphOut).

(** A ledger in which the later user finishes first. *)
Definition ledger53 : Ledger := {[ R := [mkUser A 5; mkUser B 3] ]}.

(** A node [3] with a dangling input [8] and an input [7] produced by [1]. *)
Definition graphDangling : Graph :=
  mkGraph [1; 3] 0 []
    (λ n, if decide (n = 0) then mkNode kReturn [] []
          else if decide (n = 1) then mkNode "Conv" [] [7]
          else if decide (n = 3) then mkNode "Add" [8; 7] [9]
          else noNode)
    (λ v, if decide (v = 7) then mkValue "a" (Some 1) [mkUse 3 1] 1 []
          else if decide (v = 8) then mkValue "ext" None [mkUse 3 0] 1 []
          else if decide (v = 9) then mkValue "b" (Some 3) [] 1 []
          else noValue)
    4 10.

(** The loop state after two rounds on [graphDangling] with [tenUnits]. *)
Definition danglingDone : SchedState :=
  mkSched {[ R := [mkUser 1 5; mkUser 3 5] ]} {[ 1 := 0%Z; 3 := 0%Z ]}
          [] [1; 3] [1; 3].

(** One operator [1] that reads the graph input [5] and whose output [7] is
    the graph output. *)
Definition graphIO : Graph :=
  mkGraph [1] 0 [5]
    (λ n, if decide (n = 0) then mkNode kReturn [7] []
          else if decide (n = 1) then mkNode "Relu" [5] [7]
          else noNode)
    (λ v, if decide (v = 5) then mkValue "x" None [mkUse 1 0] 1 [2%Z]
          else if decide (v = 7) then mkValue "y" (Some 1) [mkUse 0 0] 1 [2%Z]
          else noValue)
    2 8.

(** [graphIO] after normalisation: Load [2], the operator, Store [3]. *)
Definition graphIONormal : Graph := default graphIO (InsertLoadStoreNode graphIO).

(** [graphIO] with the use of its input taken away. *)
Definition graphUnused : Graph :=
  mkGraph [1] 0 [5]
    (λ n, if decide (n = 0) then mkNode kReturn [7] []
          else if decide (n = 1) then mkNode "Relu" [] [7]
          else noNode)
    (λ v, if decide (v = 7) then mkValue "y" (Some 1) [mkUse 0 0] 1 [2%Z]
          else noValue)
    2 8.
End Scenario.

(** * Properties *)

(** ** The resource ledger *)

Lemma minCycleOfList_nil acc : minCycleOfList acc [] = acc.
Proof. reflexivity. Qed.

Lemma updateUserList_nil minCycle : updateUserList minCycle [] = [].
Proof. reflexivity. Qed.

Lemma findMinCycle_idle (m : gmap nat (list ExeResUser)) :
  (∀ r userList, m !! r = Some userList → userList = []) →
  findMinCycle m = UINT_MAX.
Proof.
  unfold findMinCycle.
  apply (map_fold_weak_ind
           (λ r (m : gmap nat (list ExeResUser)),
              (∀ k l, m !! k = Some l → l = []) → r = UINT_MAX)).
  - done.
  - intros k l m' r Hk IH Hall.
    rewrite (Hall k l) by apply lookup_insert_eq.
    rewrite minCycleOfList_nil. apply IH.
    intros k' l' Hk'. apply (Hall k').
    rewrite lookup_insert_ne; [done|]. intros ->. congruence.
Qed.

(** C10: with no active user anywhere in the ledger, [updateResList] removes
    nothing, leaves every (empty) user list as it is, and returns the largest
    unsigned value, [2^32 - 1]. *)
Theorem updateResList_idle (m : gmap nat (list ExeResUser)) :
  (∀ r userList, m !! r = Some userList → userList = []) →
  updateResList m = (m, (2 ^ 32 - 1)%Z).
Proof.
  intros Hall. unfold updateResList.
  rewrite (findMinCycle_idle m Hall). f_equal.
  apply map_eq. intros k. rewrite lookup_fmap.
  destruct (m !! k) as [l|] eqn:Hk; [|done].
  rewrite (Hall k l Hk). reflexivity.
Qed.

Lemma updateResList_idle_witness :
  updateResList {[ Scenario.R := [] ]} = ({[ Scenario.R := [] ]}, (2 ^ 32 - 1)%Z).
Proof.
  apply updateResList_idle. intros r l H.
  apply lookup_singleton_Some in H as [_ <-]. reflexivity.
Defined.

(** C3, at the ledger [R ↦ [(A,5); (B,3)]]: the minimum 3 is found, subtracted
    and returned, but the entry released is [A], which still has 2 cycles to
    run, while [B], whose count reached zero, keeps its unit. *)
Theorem updateResList_releases_front :
  updateResList Scenario.ledger53
  = ({[ Scenario.R := [mkUser Scenario.B 0] ]}, 3%Z).
Proof. vm_compute. reflexivity. Qed.

(** The general shape of the release: after the subtraction, as many entries
    as reached zero are erased from the front of the list. *)

Lemma subtract_loop minCycle (todo : list ExeResUser) :
  ∀ (seen : list ExeResUser) (rmList : list nat),
    ∃ rmList',
      foldl (subtractAt minCycle) (seen ++ todo, rmList)
            (seq (length seen) (length todo))
      = (seen ++ map (elapse minCycle) todo, rmList')
      ∧ length rmList'
        = length rmList + length (filter finished (map (elapse minCycle) todo)).
Proof.
  induction todo as [|u todo IH]; intros seen rmList; simpl.
  - exists rmList. split; [done|lia].
  - rewrite (lookup_app_r seen) by lia.
    rewrite Nat.sub_diag. simpl.
    rewrite insert_app_r_alt by lia. rewrite Nat.sub_diag. simpl.
    fold (elapse minCycle u).
    change (to_unsigned (remainCycles u - minCycle))
      with (remainCycles (elapse minCycle u)).
    replace (seen ++ elapse minCycle u :: todo)
      with ((seen ++ [elapse minCycle u]) ++ todo)
      by (rewrite <- app_assoc; reflexivity).
    replace (S (length seen)) with (length (seen ++ [elapse minCycle u]))
      by (rewrite length_app; simpl; lia).
    destruct (IH (seen ++ [elapse minCycle u])
                 (if decide (remainCycles (elapse minCycle u) = 0%Z)
                  then rmList ++ [length seen] else rmList))
      as (rm' & Heq & Hlen).
    exists rm'. split.
    + rewrite Heq. rewrite <- app_assoc. reflexivity.
    + rewrite Hlen. rewrite filter_cons. simpl.
      destruct (decide (to_unsigned (remainCycles u - minCycle) = 0%Z)); simpl;
        rewrite ?length_app; simpl; lia.
Qed.

Lemma drop_delete {A} (i : nat) (l : list A) : drop i (delete i l) = drop (S i) l.
Proof.
  revert l. induction i as [|i IH]; intros [|x l]; simpl; auto.
Qed.

Lemma releaseLoop_drop count (l : list ExeResUser) : releaseLoop count l = drop count l.
Proof.
  revert l. induction count as [|i IH]; intros l; simpl.
  - by rewrite drop_0.
  - rewrite IH. apply drop_delete.
Qed.

Lemma updateUserList_drops_front minCycle (userList : list ExeResUser) :
  updateUserList minCycle userList
  = drop (length (filter finished (map (elapse minCycle) userList)))
         (map (elapse minCycle) userList).
Proof.
  unfold updateUserList.
  destruct (subtract_loop minCycle userList [] []) as (rm & Heq & Hlen).
  simpl in Heq. rewrite Heq. rewrite releaseLoop_drop. by rewrite Hlen.
Qed.

Lemma updateUserList_length minCycle (userList : list ExeResUser) :
  length (updateUserList minCycle userList) ≤ length userList.
Proof.
  rewrite updateUserList_drops_front, length_drop, length_map. lia.
Qed.

(** The first loop does find the minimum: the value returned is below every
    remaining count, and it is the count of some user when there is one. *)
Lemma minCycleOfList_spec (userList : list ExeResUser) :
  ∀ acc,
    (minCycleOfList acc userList ≤ acc)%Z
    ∧ (∀ u, u ∈ userList → (minCycleOfList acc userList ≤ remainCycles u)%Z)
    ∧ (minCycleOfList acc userList = acc
       ∨ ∃ u, u ∈ userList ∧ remainCycles u = minCycleOfList acc userList).
Proof.
  unfold minCycleOfList.
  induction userList as [|x l IH]; intros acc; simpl.
  - split; [lia|]. split; [|by left]. intros u Hu. by apply elem_of_nil in Hu.
  - destruct (IH (Z.min acc (remainCycles x))) as (Hle & Hall & Hatt).
    split; [lia|]. split.
    + intros u Hu. apply elem_of_cons in Hu as [->|Hu]; [lia|by apply Hall].
    + destruct Hatt as [Heq|(u & Hu & Heq)].
      * destruct (Z.min_spec acc (remainCycles x)) as [[_ Hm]|[_ Hm]].
        -- left. lia.
        -- right. exists x. split; [by left|lia].
      * right. exists u. split; [by right|done].
Qed.

Lemma findMinCycle_spec (m : gmap nat (list ExeResUser)) :
  (∀ r userList u, m !! r = Some userList → u ∈ userList →
                   (findMinCycle m ≤ remainCycles u)%Z)
  ∧ (findMinCycle m = UINT_MAX
     ∨ ∃ r userList u, m !! r = Some userList ∧ u ∈ userList
                       ∧ remainCycles u = findMinCycle m).
Proof.
  unfold findMinCycle.
  apply (map_fold_weak_ind
           (λ acc (m : gmap nat (list ExeResUser)),
              (∀ r l u, m !! r = Some l → u ∈ l → (acc ≤ remainCycles u)%Z)
              ∧ (acc = UINT_MAX
                 ∨ ∃ r l u, m !! r = Some l ∧ u ∈ l ∧ remainCycles u = acc))).
  - split; [|by left]. intros r l u H. by rewrite lookup_empty in H.
  - intros k l m' acc Hk [Hall Hatt].
    destruct (minCycleOfList_spec l acc) as (Hle & Hin & Hnew).
    split.
    + intros r l' u Hl' Hu. destruct (decide (k = r)) as [->|Hne].
      * rewrite lookup_insert_eq in Hl'. injection Hl' as <-. by apply Hin.
      * rewrite lookup_insert_ne in Hl' by done.
        pose proof (Hall r l' u Hl' Hu). lia.
    + destruct Hnew as [Heq|(u & Hu & Heq)].
      * rewrite Heq. destruct Hatt as [?|(r & l' & u & Hl' & Hu & Hrc)]; [by left|].
        right. exists r, l', u. split; [|done].
        rewrite lookup_insert_ne; [done|]. intros ->. congruence.
      * right. exists k, l, u. by rewrite lookup_insert_eq.
Qed.

(** ** [runOnModule] without a backend *)

(** C7: with no backend bound, [runOnModule] returns [kPassFailure] at once;
    the graph and the ledger are as they were (the degree map and the
    worklist do not exist yet), and only the diagnostic was written. *)
Theorem runOnModule_no_backend (fuel : nat) (p : PassState) :
  pass_DLATB p = None →
  ∃ p', runOnModule fuel p = Returns kPassFailure p'
        ∧ pass_graph p' = pass_graph p
        ∧ pass_ExeResUsers p' = pass_ExeResUsers p
        ∧ pass_DLATB p' = pass_DLATB p
        ∧ pass_outs p' = pass_outs p
        ∧ pass_errs p'
          = pass_errs p
            ++ ["No backend infomation that is needed for memory allcation."].
Proof.
  intros Hnull. unfold runOnModule. rewrite Hnull.
  eexists. split; [reflexivity|]. simpl. auto.
Qed.

Lemma runOnModule_no_backend_witness :
  ∃ p', runOnModule 3 (mkPass None ∅ Scenario.graphAB [] [])
        = Returns kPassFailure p'
        ∧ pass_graph p' = Scenario.graphAB
        ∧ pass_ExeResUsers p' = ∅
        ∧ pass_DLATB p' = None
        ∧ pass_outs p' = []
        ∧ pass_errs p'
          = [] ++ ["No backend infomation that is needed for memory allcation."].
Proof. apply (runOnModule_no_backend 3 (mkPass None ∅ Scenario.graphAB [] [])). reflexivity. Defined.

(** ** Boundary normalisation *)

Lemma normalize_unguarded (graph : Graph) :
  normalize graph = InsertLoadStoreNode graph.
Proof. reflexivity. Qed.

(** C2, at a graph whose last node is already a Store marker: the guard is
    evaluated and ignored, [InsertLoadStoreNode] runs again and a second
    Store node is created. *)
Theorem normalize_twice_adds_store :
  HasInsertedLoadStoreNode Scenario.graphOutStored = true
  ∧ nodes Scenario.graphOutStored = [1; 2]
  ∧ nodes <$> normalize Scenario.graphOutStored = Some [1; 2; 3]
  ∧ kind (node_at (default Scenario.graphOutStored
                           (normalize Scenario.graphOutStored)) 3) = "Store".
Proof. vm_compute. repeat split; reflexivity. Qed.

(** ** The main loop and the states it reaches *)

Lemma scheduleLoop_reaches tb graph fuel :
  ∀ st st', scheduleLoop tb graph fuel st = Finished st' →
            reaches tb graph st st' ∧ worklist st' = [].
Proof.
  induction fuel as [|fuel IH]; intros st st' Hrun; simpl in Hrun.
  - destruct (worklist st) eqn:Hwl; [|done].
    injection Hrun as <-. split; [constructor|done].
  - destruct (worklist st) eqn:Hwl.
    + injection Hrun as <-. split; [constructor|done].
    + destruct (round tb graph st) as [st1|] eqn:Hround; [|done].
      destruct (IH st1 st' Hrun) as [Hreach Hdone].
      split; [|done]. eapply reaches_round; [|exact Hround|exact Hreach].
      by rewrite Hwl.
Qed.

(** ** The main loop never advances time *)

Lemma scheduleLoop_stuck tb graph st :
  worklist st ≠ [] → round tb graph st = Some st →
  ∀ fuel, scheduleLoop tb graph fuel st = OutOfFuel.
Proof.
  intros Hwl Hround fuel. induction fuel as [|fuel IH]; simpl.
  - destruct (worklist st); [done|reflexivity].
  - destruct (worklist st); [done|]. rewrite Hround. exact IH.
Qed.

(** C1, on the two-node scenario: the first round admits [A] alone and leaves
    [B] queued; the loop then goes straight into the next round, where [A]
    still holds the only unit, so nothing is admitted and the state is the
    same as before.  Had [updateResList] run in between, [B] would be admitted. *)
Theorem round_without_time_advance :
  round Scenario.oneUnit Scenario.graphAB (fst (initSched Scenario.graphAB ∅))
  = Some Scenario.afterRound1
  ∧ round Scenario.oneUnit Scenario.graphAB Scenario.afterRound1
    = Some Scenario.afterRound1
  ∧ greedyPickNextNodes Scenario.oneUnit
      (fst (updateResList (m_ExeResUsers Scenario.afterRound1))) [Scenario.B]
    = Some ([Scenario.B], [], {[ Scenario.R := [mkUser Scenario.B 5] ]}).
Proof. vm_compute. repeat split; reflexivity. Qed.

(** C4, on the same scenario (two nodes, no edges): whatever the number of
    iterations allowed, the [while] loop of [runOnModule] has not ended. *)
Theorem runOnModule_diverges :
  ∀ fuel, runOnModule fuel Scenario.passAB = Diverges.
Proof.
  intros fuel.
  destruct fuel as [|fuel]; [vm_compute; reflexivity|].
  assert (Hst' : scheduleLoop Scenario.oneUnit Scenario.graphAB fuel
                   Scenario.afterRound1 = OutOfFuel).
  { apply scheduleLoop_stuck; [done|]. vm_compute. reflexivity. }
  unfold runOnModule.
  change (pass_DLATB Scenario.passAB) with (Some Scenario.oneUnit).
  replace (normalize (pass_graph (clear Scenario.passAB)))
    with (Some Scenario.graphAB) by (vm_compute; reflexivity).
  replace (initSched Scenario.graphAB (pass_ExeResUsers (clear Scenario.passAB)))
    with (mkSched ∅ {[ Scenario.A := 0%Z; Scenario.B := 0%Z ]}
                  [Scenario.A; Scenario.B] [Scenario.A; Scenario.B] [],
          @nil string)
    by (vm_compute; reflexivity).
  cbn [scheduleLoop worklist].
  replace (round Scenario.oneUnit Scenario.graphAB _)
    with (Some Scenario.afterRound1) by (vm_compute; reflexivity).
  rewrite Hst'. reflexivity.
Qed.

(** ** Readiness tracking: [BuildDegreeMap] *)

Lemma to_unsigned_range z : (0 ≤ to_unsigned z < 2 ^ 32)%Z.
Proof. unfold to_unsigned. apply Z.mod_pos_bound. lia. Qed.

Lemma to_unsigned_small z : (0 ≤ z < 2 ^ 32)%Z → to_unsigned z = z.
Proof. unfold to_unsigned. apply Z.mod_small. Qed.

Lemma to_unsigned_minus_l a b : to_unsigned (to_unsigned a - b) = to_unsigned (a - b).
Proof. unfold to_unsigned. apply Zminus_mod_idemp_l. Qed.

Lemma countInput_fold g n (vs : list nat) :
  ∀ (degcnt : Z) (outs : list string),
    (0 ≤ degcnt < 2 ^ 32)%Z →
    foldl (countInput g n) (degcnt, outs) vs
    = (to_unsigned
         (degcnt - Z.of_nat (length (filter (λ v, node (value_at g v) = None) vs))),
       outs ++ map (warning g n) (filter (λ v, node (value_at g v) = None) vs)).
Proof.
  induction vs as [|v vs IH]; intros degcnt outs Hd.
  - simpl. rewrite Z.sub_0_r, app_nil_r, to_unsigned_small; done.
  - simpl. rewrite filter_cons.
    destruct (node (value_at g v)) as [p|] eqn:Hp.
    + destruct (decide (Some p = None)) as [?|_]; [done|]. by apply IH.
    + destruct (decide (@None nat = None)) as [_|?]; [|done].
      rewrite IH by apply to_unsigned_range.
      rewrite to_unsigned_minus_l. simpl length. simpl map.
      rewrite <- app_assoc. simpl. do 2 f_equal. lia.
Qed.

Lemma degreeOf_eq g dm outs n :
  degreeOf g (dm, outs) n
  = (if decide (kind (node_at g n) = kUndefined) then dm
     else <[n := storedDegree g n]> dm,
     outs ++ warningsOf g n).
Proof.
  unfold degreeOf, warningsOf.
  destruct (decide (kind (node_at g n) = kUndefined)).
  - by rewrite app_nil_r.
  - rewrite countInput_fold by apply to_unsigned_range. reflexivity.
Qed.

Lemma BuildDegreeMap_fold g (ns : list nat) :
  ∀ (dm : gmap nat Z) (outs : list string),
    ∃ dm',
      foldl (degreeOf g) (dm, outs) ns = (dm', outs ++ flat_map (warningsOf g) ns)
      ∧ ∀ n, dm' !! n
             = if decide (n ∈ ns ∧ kind (node_at g n) ≠ kUndefined)
               then Some (storedDegree g n) else dm !! n.
Proof.
  induction ns as [|x ns IH]; intros dm outs.
  - exists dm. split; [simpl; by rewrite app_nil_r|].
    intros n. destruct (decide _) as [[H _]|_]; [|done]. by apply elem_of_nil in H.
  - cbn [foldl flat_map]. rewrite degreeOf_eq.
    destruct (IH (if decide (kind (node_at g x) = kUndefined) then dm
                  else <[x := storedDegree g x]> dm)
                 (outs ++ warningsOf g x)) as (dm' & Heq & Hlook).
    exists dm'. split.
    + rewrite Heq. by rewrite <- app_assoc.
    + intros n. rewrite Hlook.
      destruct (decide (n ∈ ns ∧ kind (node_at g n) ≠ kUndefined)) as [[Hin Hk]|Hno];
        destruct (decide (n ∈ x :: ns ∧ kind (node_at g n) ≠ kUndefined)) as [[Hin' Hk']|Hno'];
        try done.
      * exfalso. apply Hno'. split; [by right|done].
      * apply elem_of_cons in Hin' as [->|Hin']; [|exfalso; by apply Hno].
        destruct (decide (kind (node_at g x) = kUndefined)); [done|].
        by rewrite lookup_insert_eq.
      * destruct (decide (kind (node_at g x) = kUndefined)) as [Hu|Hu]; [done|].
        destruct (decide (n = x)) as [->|Hne].
        -- exfalso. apply Hno'. split; [by left|done].
        -- by rewrite lookup_insert_ne.
Qed.

Lemma storedDegree_small g n :
  (Z.of_nat (length (inputs (node_at g n))) < 2 ^ 32)%Z →
  storedDegree g n
  = (Z.of_nat (length (inputs (node_at g n)))
     - Z.of_nat (length (danglingInputs g n)))%Z.
Proof.
  intros Hlen. unfold storedDegree.
  assert (length (danglingInputs g n) ≤ length (inputs (node_at g n)))
    by apply length_filter.
  rewrite (to_unsigned_small (Z.of_nat _)) by lia.
  apply to_unsigned_small. lia.
Qed.

Lemma BuildDegreeMap_lookup g n :
  fst (BuildDegreeMap g) !! n
  = if decide (n ∈ nodes g ∧ kind (node_at g n) ≠ kUndefined)
    then Some (storedDegree g n) else None.
Proof.
  unfold BuildDegreeMap.
  destruct (BuildDegreeMap_fold g (nodes g) ∅ []) as (dm' & -> & Hlook).
  simpl. rewrite Hlook. by rewrite lookup_empty.
Qed.

Lemma BuildDegreeMap_outs g :
  snd (BuildDegreeMap g) = flat_map (warningsOf g) (nodes g).
Proof.
  unfold BuildDegreeMap.
  destruct (BuildDegreeMap_fold g (nodes g) ∅ []) as (dm' & -> & Hlook).
  reflexivity.
Qed.

(** C5: a listed node that is not the undefined sentinel (with an input
    count that fits [unsigned]) gets as degree the number of its inputs minus
    the number of its inputs without a producing node; the warnings written
    are exactly one per dangling input of such a node, in graph order, and
    the map is returned all the same. *)
Theorem BuildDegreeMap_degree (g : Graph) (n : NodePtr) :
  n ∈ nodes g →
  kind (node_at g n) ≠ kUndefined →
  (Z.of_nat (length (inputs (node_at g n))) < 2 ^ 32)%Z →
  fst (BuildDegreeMap g) !! n
  = Some (Z.of_nat (length (inputs (node_at g n)))
          - Z.of_nat (length (filter (λ v, node (value_at g v) = None)
                                     (inputs (node_at g n)))))%Z
  ∧ snd (BuildDegreeMap g)
    = flat_map (λ m, if decide (kind (node_at g m) = kUndefined) then []
                     else map (warning g m)
                              (filter (λ v, node (value_at g v) = None)
                                      (inputs (node_at g m))))
               (nodes g).
Proof.
  intros Hin Hk Hlen. split.
  - rewrite BuildDegreeMap_lookup. rewrite decide_True by done.
    by rewrite storedDegree_small.
  - apply BuildDegreeMap_outs.
Qed.

(** The scenario of C5: node 3 has the dangling input 8 and the input 7
    produced by node 1; its degree is 1 and one warning is written. *)
Lemma BuildDegreeMap_degree_witness :
  fst (BuildDegreeMap Scenario.graphDangling) !! 3
  = Some (Z.of_nat (length (inputs (node_at Scenario.graphDangling 3)))
          - Z.of_nat (length (filter (λ v, node (value_at Scenario.graphDangling v) = None)
                                     (inputs (node_at Scenario.graphDangling 3)))))%Z
  ∧ snd (BuildDegreeMap Scenario.graphDangling)
    = flat_map (λ m, if decide (kind (node_at Scenario.graphDangling m) = kUndefined)
                     then []
                     else map (warning Scenario.graphDangling m)
                              (filter (λ v, node (value_at Scenario.graphDangling v) = None)
                                      (inputs (node_at Scenario.graphDangling m))))
               (nodes Scenario.graphDangling).
Proof.
  apply (BuildDegreeMap_degree Scenario.graphDangling 3).
  - vm_compute. right. left.
  - vm_compute. discriminate.
  - vm_compute. reflexivity.
Defined.

Example BuildDegreeMap_dangling_scenario :
  BuildDegreeMap Scenario.graphDangling
  = ({[ 1 := 0%Z; 3 := 1%Z ]},
     ["Warning! Add use a value = ext, which doen't bind to a node"]).
Proof. vm_compute. reflexivity. Qed.

(** ** The admission pass: [greedyPickNextNodes] *)

Section PickProps.
Context (tb : DLATargetBackend).

Lemma initEntry_lookup (m : gmap nat (list ExeResUser)) res :
  initEntry m res !! res = Some (default [] (m !! res)).
Proof.
  unfold initEntry. destruct (decide (m !! res = None)) as [->|Hsome].
  - by rewrite lookup_insert_eq.
  - destruct (m !! res); done.
Qed.

Lemma initEntry_lookup_ne (m : gmap nat (list ExeResUser)) res r :
  r ≠ res → initEntry m res !! r = m !! r.
Proof.
  intros Hne. unfold initEntry. destruct (decide (m !! res = None)); [|done].
  by rewrite lookup_insert_ne.
Qed.

Lemma addExeResUser_initEntry (m : gmap nat (list ExeResUser)) res n :
  addExeResUser tb (initEntry m res) res n = addExeResUser tb m res n.
Proof.
  unfold addExeResUser. rewrite initEntry_lookup. simpl.
  unfold initEntry. destruct (decide (m !! res = None)); [|done].
  by rewrite insert_insert_eq.
Qed.

Lemma isExeResAvailable_initEntry (m : gmap nat (list ExeResUser)) res :
  isExeResAvailable tb (initEntry m res) res
  = Some (bool_decide (hasFreeUnit tb m res)).
Proof. unfold isExeResAvailable. rewrite initEntry_lookup. reflexivity. Qed.

(** One step of the scan at a position that holds [n]. *)
Lemma pickAt_eq pCands st i n :
  pCands !! i = Some n →
  pickAt tb pCands st i
  = Some (if bool_decide (hasFreeUnit tb (pick_users st) (queryExeResType tb n))
          then mkPick (addExeResUser tb (pick_users st) (queryExeResType tb n) n)
                      (pick_next st ++ [n]) (pick_rmList st ++ [i])
          else mkPick (initEntry (pick_users st) (queryExeResType tb n))
                      (pick_next st) (pick_rmList st)).
Proof.
  intros Hn. unfold pickAt. rewrite Hn. simpl.
  rewrite isExeResAvailable_initEntry. simpl.
  destruct (bool_decide _); [|done].
  by rewrite addExeResUser_initEntry.
Qed.

Lemma eraseAll_app rm1 rm2 (l : list nat) :
  eraseAll (rm1 ++ rm2) l = eraseAll rm1 (eraseAll rm2 l).
Proof. unfold eraseAll. by rewrite reverse_app, foldl_app. Qed.

Lemma delete_middle {A} (pre : list A) x post :
  delete (length pre) (pre ++ x :: post) = pre ++ post.
Proof. induction pre as [|y pre IH]; simpl; [done|]. by rewrite IH. Qed.

Lemma pickLoop_admitPass (todo : list nat) :
  ∀ (pre : list nat) (st : PickState),
    ∃ next kept rm m',
      pickLoop tb (pre ++ todo) st (seq (length pre) (length todo))
      = Some (mkPick m' (pick_next st ++ next) (pick_rmList st ++ rm))
      ∧ eraseAll rm (pre ++ todo) = pre ++ kept
      ∧ admitPass tb (pick_users st) todo next kept m'.
Proof.
  induction todo as [|n todo IH]; intros pre st.
  - exists [], [], [], (pick_users st). simpl. rewrite !app_nil_r.
    split; [by destruct st|]. split; [done|]. constructor.
  - cbn [length seq]. unfold pickLoop. cbn [foldl mbind option_bind].
    rewrite (pickAt_eq (pre ++ n :: todo) st (length pre) n)
      by (rewrite lookup_app_r, Nat.sub_diag by lia; done).
    replace (pre ++ n :: todo) with ((pre ++ [n]) ++ todo)
      by (by rewrite <- app_assoc).
    replace (S (length pre)) with (length (pre ++ [n]))
      by (rewrite length_app; simpl; lia).
    destruct (bool_decide (hasFreeUnit tb (pick_users st) (queryExeResType tb n)))
      eqn:Hfree.
    + apply bool_decide_eq_true in Hfree.
      destruct (IH (pre ++ [n])
                   (mkPick (addExeResUser tb (pick_users st) (queryExeResType tb n) n)
                           (pick_next st ++ [n]) (pick_rmList st ++ [length pre])))
        as (next & kept & rm & m' & Hloop & Herase & Hpass).
      exists (n :: next), kept, (length pre :: rm), m'. split; [|split].
      * unfold pickLoop in Hloop. rewrite Hloop. simpl. by rewrite <- !app_assoc.
      * change (length pre :: rm) with ([length pre] ++ rm).
        rewrite eraseAll_app, Herase. unfold eraseAll. simpl.
        rewrite <- app_assoc. simpl. apply delete_middle.
      * by apply admit_take.
    + apply bool_decide_eq_false in Hfree.
      destruct (IH (pre ++ [n])
                   (mkPick (initEntry (pick_users st) (queryExeResType tb n))
                           (pick_next st) (pick_rmList st)))
        as (next & kept & rm & m' & Hloop & Herase & Hpass).
      exists next, (n :: kept), rm, m'. split; [|split].
      * exact Hloop.
      * rewrite Herase. simpl. by rewrite <- app_assoc.
      * by apply admit_skip.
Qed.

Lemma admitPass_sublists m cands next kept m' :
  admitPass tb m cands next kept m' →
  sublist next cands ∧ sublist kept cands ∧ cands ≡ₚ next ++ kept.
Proof.
  induction 1 as [m|m n cands next kept m' Hfree Hpass (IHn & IHk & IHp)
                 |m n cands next kept m' Hfree Hpass (IHn & IHk & IHp)].
  - repeat split; constructor.
  - split; [by constructor|]. split; [by constructor|].
    simpl. by constructor.
  - split; [by constructor|]. split; [by constructor|].
    rewrite IHp. apply Permutation_middle.
Qed.

Lemma admitPass_functional m cands next kept m' next2 kept2 m2 :
  admitPass tb m cands next kept m' →
  admitPass tb m cands next2 kept2 m2 →
  next = next2 ∧ kept = kept2 ∧ m' = m2.
Proof.
  intros H. revert next2 kept2 m2.
  induction H as [m|m n cands next kept m' Hfree Hpass IH
                   |m n cands next kept m' Hfree Hpass IH];
    intros next2 kept2 m2 H2; inversion H2; subst; try done.
  - destruct (IH _ _ _ ltac:(eassumption)) as (-> & -> & ->). done.
  - destruct (IH _ _ _ ltac:(eassumption)) as (-> & -> & ->). done.
Qed.

Lemma greedyPickNextNodes_total (m : gmap nat (list ExeResUser)) (pCands : list nat) :
  ∃ next kept m',
    greedyPickNextNodes tb m pCands = Some (next, kept, m')
    ∧ admitPass tb m pCands next kept m'.
Proof.
  destruct (pickLoop_admitPass pCands [] (mkPick m [] []))
    as (next & kept & rm & m' & Hloop & Herase & Hpass).
  exists next, kept, m'. simpl in *. split; [|exact Hpass].
  unfold greedyPickNextNodes. rewrite Hloop. simpl. by rewrite Herase.
Qed.

(** C6: [greedyPickNextNodes] always returns, and what it returns is the
    outcome of the left-to-right admission pass: a candidate is admitted
    exactly when its resource class has a free unit at the moment it is
    scanned, the admitted and the remaining candidates both keep the
    order they had in the worklist, and together they are the worklist. *)
Theorem greedyPickNextNodes_admitPass (m : gmap nat (list ExeResUser))
    (pCands : list nat) :
  ∃ next kept m',
    greedyPickNextNodes tb m pCands = Some (next, kept, m')
    ∧ admitPass tb m pCands next kept m'
    ∧ sublist next pCands ∧ sublist kept pCands ∧ pCands ≡ₚ next ++ kept.
Proof.
  destruct (greedyPickNextNodes_total m pCands) as (next & kept & m' & Heq & Hpass).
  exists next, kept, m'. split; [exact Heq|]. split; [exact Hpass|].
  by eapply admitPass_sublists.
Qed.
End PickProps.

(** ** The capacity invariant *)

Section Capacity.
Context (tb : DLATargetBackend).

Lemma withinCapacity_empty : withinCapacity tb ∅.
Proof. intros res l H. by rewrite lookup_empty in H. Qed.

Lemma withinCapacity_initEntry (m : gmap nat (list ExeResUser)) res :
  withinCapacity tb m → withinCapacity tb (initEntry m res).
Proof.
  intros Hm r l Hl. destruct (decide (r = res)) as [->|Hne].
  - rewrite initEntry_lookup in Hl. injection Hl as <-.
    destruct (m !! res) as [l0|] eqn:H0; simpl; [by apply (Hm res)|lia].
  - rewrite initEntry_lookup_ne in Hl by done. by apply (Hm r).
Qed.

Lemma withinCapacity_addExeResUser (m : gmap nat (list ExeResUser)) res n :
  withinCapacity tb m → hasFreeUnit tb m res →
  withinCapacity tb (addExeResUser tb m res n).
Proof.
  intros Hm Hfree r l Hl. unfold addExeResUser in Hl.
  destruct (decide (r = res)) as [->|Hne].
  - rewrite lookup_insert_eq in Hl. injection Hl as <-.
    unfold hasFreeUnit in Hfree. rewrite length_app. simpl. lia.
  - rewrite lookup_insert_ne in Hl by done. by apply (Hm r).
Qed.

Lemma pickAt_capacity pCands st i st' :
  withinCapacity tb (pick_users st) →
  pickAt tb pCands st i = Some st' →
  withinCapacity tb (pick_users st').
Proof.
  intros Hm Hstep.
  destruct (pCands !! i) as [n|] eqn:Hn; [|by unfold pickAt in Hstep; rewrite Hn in Hstep].
  rewrite (pickAt_eq tb pCands st i n Hn) in Hstep. injection Hstep as <-.
  destruct (bool_decide (hasFreeUnit tb (pick_users st) (queryExeResType tb n))) eqn:Hfree;
    simpl.
  - apply bool_decide_eq_true in Hfree. by apply withinCapacity_addExeResUser.
  - by apply withinCapacity_initEntry.
Qed.

Lemma pickAt_admits_available pCands st i n st' :
  pCands !! i = Some n →
  pickAt tb pCands st i = Some st' →
  pick_next st' = pick_next st ++ [n] →
  isExeResAvailable tb (initEntry (pick_users st) (queryExeResType tb n))
                    (queryExeResType tb n)
  = Some true.
Proof.
  intros Hn Hstep Hnext.
  rewrite (pickAt_eq tb pCands st i n Hn) in Hstep. injection Hstep as <-.
  rewrite isExeResAvailable_initEntry.
  destruct (bool_decide (hasFreeUnit tb (pick_users st) (queryExeResType tb n)));
    [done|].
  simpl in Hnext. exfalso.
  apply (f_equal length) in Hnext. rewrite length_app in Hnext. simpl in Hnext. lia.
Qed.

Lemma pickLoop_None pCands idx :
  foldl (λ acc i, acc ≫= λ s, pickAt tb pCands s i) None idx = None.
Proof. induction idx as [|i idx IH]; simpl; done. Qed.

Lemma pickLoop_capacity pCands idx :
  ∀ st s,
    withinCapacity tb (pick_users st) →
    pickLoop tb pCands st idx = Some s →
    withinCapacity tb (pick_users s).
Proof.
  induction idx as [|i idx IH]; intros st s Hm Hloop.
  - injection Hloop as <-. done.
  - unfold pickLoop in Hloop. cbn [foldl mbind option_bind] in Hloop.
    destruct (pickAt tb pCands st i) as [st1|] eqn:Hstep.
    + apply (IH st1 s); [by eapply pickAt_capacity|exact Hloop].
    + by rewrite pickLoop_None in Hloop.
Qed.

Lemma greedyPickNextNodes_capacity (m : gmap nat (list ExeResUser)) pCands next kept m' :
  withinCapacity tb m →
  greedyPickNextNodes tb m pCands = Some (next, kept, m') →
  withinCapacity tb m'.
Proof.
  intros Hm Hpick. unfold greedyPickNextNodes in Hpick.
  destruct (pickLoop tb pCands (mkPick m [] []) (seq 0 (length pCands)))
    as [s|] eqn:Hloop; [|done].
  simpl in Hpick. injection Hpick as _ _ <-.
  by apply (pickLoop_capacity pCands _ (mkPick m [] []) s Hm Hloop).
Qed.

Lemma round_ledger g st st' :
  round tb g st = Some st' →
  ∃ next kept,
    greedyPickNextNodes tb (m_ExeResUsers st) (worklist st)
    = Some (next, kept, m_ExeResUsers st').
Proof.
  unfold round. intros Hround.
  destruct (greedyPickNextNodes tb (m_ExeResUsers st) (worklist st))
    as [[[next kept] users]|]; [|done].
  simpl in Hround.
  destruct (foldl (propagateNode g) (Some (dmap st, kept, pushed st)) next)
    as [[[dm wl] ps]|]; [|done].
  simpl in Hround. injection Hround as <-. simpl. by exists next, kept.
Qed.

Lemma reaches_capacity g st st' :
  reaches tb g st st' →
  withinCapacity tb (m_ExeResUsers st) → withinCapacity tb (m_ExeResUsers st').
Proof.
  induction 1 as [st|st st1 st2 Hwl Hround Hreach IH]; intros Hm; [done|].
  apply IH. destruct (round_ledger g st st1 Hround) as (next & kept & Hpick).
  by eapply greedyPickNextNodes_capacity.
Qed.

Lemma updateResList_capacity (m : gmap nat (list ExeResUser)) :
  withinCapacity tb m → withinCapacity tb (fst (updateResList m)).
Proof.
  intros Hm res l Hl. simpl in Hl. rewrite lookup_fmap in Hl.
  destruct (m !! res) as [l0|] eqn:H0; [|done].
  simpl in Hl. injection Hl as <-.
  pose proof (updateUserList_length (findMinCycle m) l0).
  pose proof (Hm res l0 H0). lia.
Qed.

Lemma initSched_ledger g users : m_ExeResUsers (fst (initSched g users)) = users.
Proof.
  unfold initSched. destruct (BuildDegreeMap g) as [dm outs].
  destruct (seedWorklist g dm) as [dm' wl]. reflexivity.
Qed.

(** C8: in every state the loop of a run reaches from a ledger within
    capacity (after [clear()] it is empty), and in every state the admission
    scan passes through from there, no resource class has more users than
    [numUnits]; [isExeResAvailable] is true exactly when the class has fewer
    users than units; and a scan step that admits a node is one where
    [isExeResAvailable] returned true. *)
Theorem capacity_never_exceeded (g : Graph)
    (users : gmap nat (list ExeResUser)) (st : SchedState) :
  withinCapacity tb users →
  reaches tb g (fst (initSched g users)) st →
  withinCapacity tb (m_ExeResUsers st)
  ∧ (∀ res userList,
       m_ExeResUsers st !! res = Some userList →
       isExeResAvailable tb (m_ExeResUsers st) res
       = Some (bool_decide (N.of_nat (length userList) < numUnits tb res)%N))
  ∧ (∀ idx s,
       pickLoop tb (worklist st) (mkPick (m_ExeResUsers st) [] []) idx = Some s →
       withinCapacity tb (pick_users s)
       ∧ ∀ i n s',
           worklist st !! i = Some n →
           pickAt tb (worklist st) s i = Some s' →
           pick_next s' = pick_next s ++ [n] →
           isExeResAvailable tb (initEntry (pick_users s) (queryExeResType tb n))
                             (queryExeResType tb n)
           = Some true).
Proof.
  intros Husers Hreach.
  assert (Hcap : withinCapacity tb (m_ExeResUsers st)).
  { apply (reaches_capacity g _ st Hreach).
    by rewrite initSched_ledger. }
  split; [exact Hcap|]. split.
  - intros res l Hl. unfold isExeResAvailable. by rewrite Hl.
  - intros idx s Hloop. split.
    + by apply (pickLoop_capacity (worklist st) idx
                                  (mkPick (m_ExeResUsers st) [] []) s Hcap Hloop).
    + intros i n s' Hn Hstep Hnext. by eapply pickAt_admits_available.
Qed.
End Capacity.

(** ** Readiness propagation *)

Lemma occurrences_cons_eq u l : occurrences u (u :: l) = S (occurrences u l).
Proof. unfold occurrences. rewrite filter_cons_True by done. reflexivity. Qed.

Lemma occurrences_cons_ne u x l : x ≠ u → occurrences u (x :: l) = occurrences u l.
Proof. intros H. unfold occurrences. by rewrite filter_cons_False. Qed.

Lemma occurrences_zero u l : occurrences u l = 0 ↔ u ∉ l.
Proof.
  unfold occurrences. induction l as [|x l IH].
  - split; [intros _; apply not_elem_of_nil|done].
  - destruct (decide (x = u)) as [->|Hne].
    + rewrite filter_cons_True by done. simpl. split; [lia|].
      intros H. exfalso. apply H. by left.
    + rewrite filter_cons_False by done. rewrite IH.
      rewrite not_elem_of_cons. split; [by intros ?; split|by intros [_ ?]].
Qed.

Lemma occurrences_app u l1 l2 :
  occurrences u (l1 ++ l2) = occurrences u l1 + occurrences u l2.
Proof. unfold occurrences. by rewrite filter_app, length_app. Qed.

Lemma decrement_None us : foldl decrement None us = None.
Proof. induction us; simpl; done. Qed.

Lemma fmap_sub_zero (o : option Z) : (λ d, d - Z.of_nat 0)%Z <$> o = o.
Proof. destruct o; simpl; [f_equal; lia|done]. Qed.

Lemma decrement_fold (us : list nat) :
  ∀ (dm : gmap nat Z) (wl ps : list nat) dm' wl' ps',
    foldl decrement (Some (dm, wl, ps)) us = Some (dm', wl', ps') →
    (∀ u d, u ∈ us → dm !! u = Some d →
            (Z.of_nat (occurrences u us) ≤ d < 2 ^ 32)%Z) →
    ∃ new,
      wl' = wl ++ new ∧ ps' = ps ++ new ∧ NoDup new
      ∧ (∀ u, u ∈ new ↔ u ∈ us ∧ dm' !! u = Some 0%Z)
      ∧ (∀ u, dm' !! u = (λ d, d - Z.of_nat (occurrences u us))%Z <$> dm !! u)
      ∧ (∀ u, u ∈ us → is_Some (dm !! u)).
Proof.
  induction us as [|u0 us IH]; intros dm wl ps dm' wl' ps' Hfold Hpre.
  - simpl in Hfold. injection Hfold as <- <- <-.
    exists []. rewrite !app_nil_r.
    split; [done|]. split; [done|]. split; [constructor|].
    split; [|split].
    + intros u. split; [intros Hu|intros [Hu _]]; by apply elem_of_nil in Hu.
    + intros u. unfold occurrences. simpl. by rewrite fmap_sub_zero.
    + intros u Hu. by apply elem_of_nil in Hu.
  - cbn [foldl] in Hfold.
    destruct (dm !! u0) as [d0|] eqn:Hd0; cycle 1.
    { unfold decrement in Hfold at 2. simpl in Hfold. rewrite Hd0 in Hfold.
      simpl in Hfold. by rewrite decrement_None in Hfold. }
    pose proof (Hpre u0 d0 ltac:(by left) Hd0) as Hd0r.
    rewrite occurrences_cons_eq in Hd0r.
    assert (Hstep : decrement (Some (dm, wl, ps)) u0
                    = if decide ((d0 - 1)%Z = 0%Z)
                      then Some (<[u0 := (d0 - 1)%Z]> dm, wl ++ [u0], ps ++ [u0])
                      else Some (<[u0 := (d0 - 1)%Z]> dm, wl, ps)).
    { unfold decrement. simpl. rewrite Hd0. simpl.
      rewrite to_unsigned_small by lia. reflexivity. }
    rewrite Hstep in Hfold. clear Hstep.
    assert (Hpre' : ∀ u d, u ∈ us → <[u0 := (d0 - 1)%Z]> dm !! u = Some d →
                           (Z.of_nat (occurrences u us) ≤ d < 2 ^ 32)%Z).
    { intros u d Hu Hd. destruct (decide (u = u0)) as [->|Hne].
      - rewrite lookup_insert_eq in Hd. injection Hd as <-. lia.
      - rewrite lookup_insert_ne in Hd by done.
        pose proof (Hpre u d ltac:(by right) Hd) as Hr.
        rewrite occurrences_cons_ne in Hr by done. exact Hr. }
    destruct (decide ((d0 - 1)%Z = 0%Z)) as [Hz|Hnz].
    + assert (Hnot : u0 ∉ us) by (apply occurrences_zero; lia).
      destruct (IH _ _ _ _ _ _ Hfold Hpre')
        as (new & -> & -> & Hnd & Hnew & Hdm & Hdom).
      exists (u0 :: new). rewrite <- !app_assoc. simpl.
      split; [done|]. split; [done|].
      assert (Hu0 : dm' !! u0 = Some 0%Z).
      { rewrite Hdm, lookup_insert_eq. simpl. f_equal.
        apply occurrences_zero in Hnot. rewrite Hnot. lia. }
      split; [|split; [|split]].
      * constructor; [|done]. intros Hin. apply Hnew in Hin as [Hin _]. done.
      * intros u. rewrite elem_of_cons, Hnew, elem_of_cons.
        split.
        -- intros [->|[? ?]]; [split; [by left|done]|split; [by right|done]].
        -- intros [[->|?] ?]; [by left|by right].
      * intros u. rewrite Hdm. destruct (decide (u = u0)) as [->|Hne].
        -- rewrite lookup_insert_eq, Hd0. simpl. f_equal.
           rewrite occurrences_cons_eq. apply occurrences_zero in Hnot. lia.
        -- rewrite lookup_insert_ne by done.
           by rewrite occurrences_cons_ne.
      * intros u Hu. apply elem_of_cons in Hu as [->|Hu]; [by rewrite Hd0|].
        specialize (Hdom u Hu). destruct (decide (u = u0)) as [->|Hne].
        -- by rewrite Hd0.
        -- by rewrite lookup_insert_ne in Hdom.
    + destruct (IH _ _ _ _ _ _ Hfold Hpre')
        as (new & -> & -> & Hnd & Hnew & Hdm & Hdom).
      exists new. split; [done|]. split; [done|]. split; [done|].
      assert (Hu0 : dm' !! u0 = Some (d0 - Z.of_nat (S (occurrences u0 us)))%Z).
      { rewrite Hdm, lookup_insert_eq. simpl. f_equal. lia. }
      split; [|split].
      * intros u. rewrite Hnew, elem_of_cons.
        split; [intros [? ?]; split; [by right|done]|].
        intros [[->|Hu] Hzero]; [|done].
        destruct (decide (u0 ∈ us)) as [?|Hnot]; [done|].
        exfalso. apply occurrences_zero in Hnot.
        rewrite Hu0, Hnot in Hzero. injection Hzero as Hzero. lia.
      * intros u. destruct (decide (u = u0)) as [->|Hne].
        -- rewrite Hu0, Hd0, occurrences_cons_eq. reflexivity.
        -- rewrite Hdm, lookup_insert_ne by done.
           by rewrite occurrences_cons_ne.
      * intros u Hu. apply elem_of_cons in Hu as [->|Hu]; [by rewrite Hd0|].
        specialize (Hdom u Hu). destruct (decide (u = u0)) as [->|Hne].
        -- by rewrite Hd0.
        -- by rewrite lookup_insert_ne in Hdom.
Qed.

Lemma propagateUse_eq g acc (u : Use) :
  propagateUse g acc u
  = if decide (kind (node_at g (user u)) = kReturn) then acc
    else decrement acc (user u).
Proof.
  unfold propagateUse, decrement.
  destruct acc as [[[dm wl] ps]|]; simpl;
    destruct (decide (kind (node_at g (user u)) = kReturn)); reflexivity.
Qed.

Lemma propagateUses_eq g (us : list Use) :
  ∀ acc,
    foldl (propagateUse g) acc us
    = foldl decrement acc
            (filter (λ u, kind (node_at g u) ≠ kReturn) (map user us)).
Proof.
  induction us as [|u us IH]; intros acc; [done|].
  cbn [foldl map]. rewrite IH, propagateUse_eq.
  destruct (decide (kind (node_at g (user u)) = kReturn)) as [Hr|Hr].
  - rewrite filter_cons_False by (intros H; by apply H). reflexivity.
  - rewrite filter_cons_True by done. reflexivity.
Qed.

Lemma foldl_flat_map {A B C} (f : A → B → A) (h : C → list B) (l : list C) :
  ∀ a, foldl f a (flat_map h l) = foldl (λ a v, foldl f a (h v)) a l.
Proof.
  induction l as [|x l IH]; intros a; [done|].
  simpl. by rewrite foldl_app, IH.
Qed.

Lemma filter_flat_map {A B} (P : B → Prop) `{∀ x, Decision (P x)}
    (h : A → list B) (l : list A) :
  filter P (flat_map h l) = flat_map (λ x, filter P (h x)) l.
Proof.
  induction l as [|x l IH]; [done|].
  simpl. by rewrite filter_app, IH.
Qed.

Lemma propagateNode_eq g acc n :
  propagateNode g acc n = foldl decrement acc (demands g n).
Proof.
  unfold propagateNode, demands, consumers, propagateValue.
  rewrite filter_flat_map, foldl_flat_map.
  generalize (outputs (node_at g n)). intros vs. revert acc.
  induction vs as [|v vs IH]; intros acc; [done|].
  cbn [foldl]. by rewrite IH, propagateUses_eq.
Qed.

Lemma propagateNodes_None g ns : foldl (propagateNode g) None ns = None.
Proof.
  induction ns as [|n ns IH]; [done|].
  cbn [foldl]. by rewrite propagateNode_eq, decrement_None.
Qed.

(** *** Def-use bookkeeping *)

Lemma pending_le g A u : pending g A u ≤ length (inputs (node_at g u)).
Proof. apply length_filter. Qed.

Lemma awaits_Some g A v p :
  node (value_at g v) = Some p → awaits g A v ↔ p ∉ A.
Proof. intros H. unfold awaits. by rewrite H. Qed.

Lemma awaits_None g A v : node (value_at g v) = None → ¬ awaits g A v.
Proof. intros H. unfold awaits. rewrite H. tauto. Qed.

Lemma pending_nil g u :
  pending g [] u + length (danglingInputs g u) = length (inputs (node_at g u)).
Proof.
  unfold pending, danglingInputs.
  induction (inputs (node_at g u)) as [|v vs IH]; [done|].
  destruct (node (value_at g v)) as [p|] eqn:Hp.
  - rewrite (filter_cons_True (awaits g []))
      by (apply (awaits_Some g [] v p Hp), not_elem_of_nil).
    rewrite (filter_cons_False (λ v, node (value_at g v) = None)) by congruence.
    simpl. lia.
  - rewrite (filter_cons_False (awaits g [])) by (by apply awaits_None).
    rewrite (filter_cons_True (λ v, node (value_at g v) = None)) by done.
    simpl. lia.
Qed.

Lemma pending_ext g A B u :
  (∀ p, p ∈ A ↔ p ∈ B) → pending g A u = pending g B u.
Proof.
  intros Hext. unfold pending. f_equal. apply list_filter_iff.
  intros v. unfold awaits. destruct (node (value_at g v)); [|done].
  by rewrite Hext.
Qed.

Lemma pending_admit g A n u :
  n ∉ A →
  pending g A u = pending g (n :: A) u + length (inputsFrom g u n).
Proof.
  intros Hn. unfold pending, inputsFrom.
  induction (inputs (node_at g u)) as [|v vs IH]; [done|].
  destruct (node (value_at g v)) as [p|] eqn:Hp.
  - destruct (decide (p = n)) as [->|Hne].
    + rewrite (filter_cons_True (awaits g A)) by (by apply (awaits_Some g A v n Hp)).
      rewrite (filter_cons_False (awaits g (n :: A)))
        by (rewrite (awaits_Some g (n :: A) v n Hp); intros Hc; apply Hc; by left).
      rewrite (filter_cons_True (λ v, node (value_at g v) = Some n)) by done.
      simpl. lia.
    + rewrite (filter_cons_False (λ v, node (value_at g v) = Some n)) by congruence.
      destruct (decide (p ∈ A)) as [Hin|Hin].
      * rewrite (filter_cons_False (awaits g A))
          by (rewrite (awaits_Some g A v p Hp); intros Hc; by apply Hc).
        rewrite (filter_cons_False (awaits g (n :: A)))
          by (rewrite (awaits_Some g (n :: A) v p Hp); intros Hc; apply Hc; by right).
        exact IH.
      * rewrite (filter_cons_True (awaits g A)) by (by apply (awaits_Some g A v p Hp)).
        rewrite (filter_cons_True (awaits g (n :: A)))
          by (apply (awaits_Some g (n :: A) v p Hp); rewrite not_elem_of_cons; done).
        simpl. lia.
  - rewrite (filter_cons_False (awaits g A)) by (by apply awaits_None).
    rewrite (filter_cons_False (awaits g (n :: A))) by (by apply awaits_None).
    rewrite (filter_cons_False (λ v, node (value_at g v) = Some n)) by congruence.
    exact IH.
Qed.

(** *** The loop invariant *)

Lemma occurrences_filter_True (P : nat → Prop) `{∀ x, Decision (P x)} u l :
  P u → occurrences u (filter P l) = occurrences u l.
Proof.
  intros Hu. unfold occurrences. induction l as [|x l IH]; [done|].
  destruct (decide (P x)) as [Hx|Hx].
  - rewrite (filter_cons_True P) by done.
    destruct (decide (x = u)) as [->|Hne].
    + rewrite !(filter_cons_True (λ x, x = u)) by done. simpl. by rewrite IH.
    + rewrite !(filter_cons_False (λ x, x = u)) by done. exact IH.
  - rewrite (filter_cons_False P) by done.
    rewrite (filter_cons_False (λ x, x = u)) by (intros ->; done). exact IH.
Qed.

Lemma occurrences_filter_False (P : nat → Prop) `{∀ x, Decision (P x)} u l :
  ¬ P u → occurrences u (filter P l) = 0.
Proof.
  intros Hu. apply occurrences_zero. intros Hin.
  apply list_elem_of_filter in Hin as [? _]. done.
Qed.

Lemma occurrences_pos u l : u ∈ l → 0 < occurrences u l.
Proof.
  intros Hin. destruct (occurrences u l) eqn:Hocc; [|lia].
  apply occurrences_zero in Hocc. done.
Qed.

Section Readiness.
Context (g : Graph) (Hwf : wellFormed g).

Lemma tracked_arity u :
  tracked g u → (Z.of_nat (length (inputs (node_at g u))) < 2 ^ 32)%Z.
Proof.
  intros [Hin _]. pose proof (wf_arity g Hwf) as Har.
  rewrite Forall_forall in Har. by apply Har.
Qed.

Lemma tracked_def_use n u :
  tracked g n → tracked g u →
  occurrences u (consumers g n) = length (inputsFrom g u n).
Proof.
  intros [Hn _] [Hu _]. pose proof (wf_def_use g Hwf) as Hdu.
  rewrite Forall_forall in Hdu. specialize (Hdu n Hn).
  rewrite Forall_forall in Hdu. by apply Hdu.
Qed.

Lemma inv_tracked dm ps A u d :
  schedInv g dm ps A → dm !! u = Some d → tracked g u.
Proof.
  intros Hinv Hd. rewrite (inv_dmap _ _ _ _ Hinv) in Hd.
  destruct (decide (tracked g u)); done.
Qed.

Lemma demands_occurrences n u :
  tracked g n → tracked g u →
  occurrences u (demands g n)
  = if decide (kind (node_at g u) = kReturn) then 0
    else length (inputsFrom g u n).
Proof.
  intros Hn Hu. unfold demands.
  destruct (decide (kind (node_at g u) = kReturn)) as [Hr|Hr].
  - apply (occurrences_filter_False (λ u, kind (node_at g u) ≠ kReturn)).
    intros Hc. by apply Hc.
  - rewrite (occurrences_filter_True (λ u, kind (node_at g u) ≠ kReturn)) by done.
    by apply tracked_def_use.
Qed.

Lemma expectedDegree_step A n u :
  tracked g n → tracked g u → n ∉ A →
  (expectedDegree g A u - Z.of_nat (occurrences u (demands g n)))%Z
  = expectedDegree g (A ++ [n]) u
  ∧ (Z.of_nat (occurrences u (demands g n)) ≤ expectedDegree g A u)%Z.
Proof.
  intros Hn Hu HnA. rewrite demands_occurrences by done.
  unfold expectedDegree.
  destruct (decide (kind (node_at g u) = kReturn)).
  - split; [lia|]. unfold storedDegree. pose proof (to_unsigned_range
      (to_unsigned (Z.of_nat (length (inputs (node_at g u))))
       - Z.of_nat (length (danglingInputs g u)))). simpl. lia.
  - rewrite (pending_admit g A n u HnA).
    rewrite (pending_ext g (A ++ [n]) (n :: A) u).
    + lia.
    + intros p. rewrite elem_of_app, !elem_of_cons.
      split; [intros [?|[?|Hc]]|intros [?|?]]; auto.
      by apply elem_of_nil in Hc.
Qed.

Lemma expectedDegree_bound A u :
  tracked g u → (expectedDegree g A u < 2 ^ 32)%Z.
Proof.
  intros Hu. unfold expectedDegree.
  destruct (decide (kind (node_at g u) = kReturn)).
  - apply to_unsigned_range.
  - pose proof (pending_le g A u). pose proof (tracked_arity u Hu). lia.
Qed.

Lemma propagateNode_inv dm wl ps A n dm' wl' ps' :
  schedInv g dm ps A → n ∈ ps → n ∉ A →
  propagateNode g (Some (dm, wl, ps)) n = Some (dm', wl', ps') →
  ∃ new, wl' = wl ++ new ∧ ps' = ps ++ new
         ∧ schedInv g dm' (ps ++ new) (A ++ [n]).
Proof.
  intros Hinv Hnps HnA Hprop.
  assert (Hn : tracked g n).
  { apply (inv_pushed _ _ _ _ Hinv) in Hnps. by eapply inv_tracked. }
  rewrite propagateNode_eq in Hprop.
  assert (Hpre : ∀ u d, u ∈ demands g n → dm !! u = Some d →
                        (Z.of_nat (occurrences u (demands g n)) ≤ d < 2 ^ 32)%Z).
  { intros u d _ Hd.
    assert (Hu : tracked g u) by (by eapply inv_tracked).
    rewrite (inv_dmap _ _ _ _ Hinv), decide_True in Hd by done.
    injection Hd as <-.
    split; [by apply expectedDegree_step|by apply expectedDegree_bound]. }
  destruct (decrement_fold _ _ _ _ _ _ _ Hprop Hpre)
    as (new & -> & -> & Hnd & Hnew & Hdm & Hdom).
  exists new. split; [done|]. split; [done|].
  assert (Hocc0 : ∀ u, dm !! u = Some 0%Z → occurrences u (demands g n) = 0).
  { intros u Hu. destruct (decide (u ∈ demands g n)) as [Hin|Hin].
    - pose proof (Hpre u 0%Z Hin Hu). lia.
    - by apply occurrences_zero. }
  split.
  - apply NoDup_app. split; [apply (inv_nodup _ _ _ _ Hinv)|]. split; [|done].
    intros u Hups Hunew. apply Hnew in Hunew as [Hin _].
    apply (inv_pushed _ _ _ _ Hinv) in Hups.
    pose proof (occurrences_pos _ _ Hin). pose proof (Hocc0 u Hups). lia.
  - intros u. rewrite Hdm, (inv_dmap _ _ _ _ Hinv).
    destruct (decide (tracked g u)) as [Hu|Hu]; [|done].
    simpl. f_equal. by apply expectedDegree_step.
  - intros u. rewrite elem_of_app. split.
    + intros [Hups|Hunew]; [|by apply Hnew].
      apply (inv_pushed _ _ _ _ Hinv) in Hups.
      rewrite Hdm, Hups. simpl. rewrite (Hocc0 u Hups). done.
    + intros Hz. destruct (decide (u ∈ demands g n)) as [Hin|Hin].
      * right. by apply Hnew.
      * left. apply (inv_pushed _ _ _ _ Hinv).
        rewrite Hdm in Hz. apply occurrences_zero in Hin. rewrite Hin in Hz.
        destruct (dm !! u) as [d|]; [|done]. simpl in Hz.
        injection Hz as Hz. f_equal. lia.
Qed.
End Readiness.

Section Rounds.
Context (tb : DLATargetBackend) (g : Graph) (Hwf : wellFormed g).

Lemma propagateNodes_inv (next : list nat) :
  ∀ dm wl ps A dm' wl' ps',
    schedInv g dm ps A → ps ≡ₚ A ++ next ++ wl →
    foldl (propagateNode g) (Some (dm, wl, ps)) next = Some (dm', wl', ps') →
    schedInv g dm' ps' (A ++ next) ∧ ps' ≡ₚ (A ++ next) ++ wl'.
Proof.
  induction next as [|n next IH]; intros dm wl ps A dm' wl' ps' Hinv Hperm Hfold.
  - simpl in Hfold. injection Hfold as <- <- <-. rewrite app_nil_r. done.
  - cbn [foldl] in Hfold.
    destruct (propagateNode g (Some (dm, wl, ps)) n) as [[[dm1 wl1] ps1]|] eqn:Hstep;
      [|by rewrite propagateNodes_None in Hfold].
    assert (Hnps : n ∈ ps).
    { rewrite Hperm, elem_of_app. right. by left. }
    assert (HnA : n ∉ A).
    { pose proof (inv_nodup _ _ _ _ Hinv) as Hnd. rewrite Hperm in Hnd.
      apply NoDup_app in Hnd as (_ & Hdisj & _).
      intros HA. apply (Hdisj n HA). by left. }
    destruct (propagateNode_inv g Hwf _ _ _ _ _ _ _ _ Hinv Hnps HnA Hstep)
      as (new & -> & -> & Hinv1).
    assert (Hperm1 : ps ++ new ≡ₚ (A ++ [n]) ++ next ++ (wl ++ new)).
    { rewrite Hperm. rewrite <- !app_assoc. simpl. reflexivity. }
    destruct (IH _ _ _ _ _ _ _ Hinv1 Hperm1 Hfold) as [Hinv' Hperm'].
    assert (E : (A ++ [n]) ++ next = A ++ n :: next)
      by (by rewrite <- app_assoc).
    rewrite E in Hinv', Hperm'. done.
Qed.

Lemma round_inv st st' : loopInv g st → round tb g st = Some st' → loopInv g st'.
Proof.
  intros [Hinv Hperm] Hround. unfold round in Hround.
  destruct (greedyPickNextNodes_total tb (m_ExeResUsers st) (worklist st))
    as (next & kept & m' & Hpick & Hpass).
  rewrite Hpick in Hround. simpl in Hround.
  destruct (foldl (propagateNode g) (Some (dmap st, kept, pushed st)) next)
    as [[[dm wl] ps]|] eqn:Hfold; [|done].
  simpl in Hround. injection Hround as <-.
  apply admitPass_sublists in Hpass as (_ & _ & Hsplit).
  assert (Hperm0 : pushed st ≡ₚ admitted st ++ next ++ kept)
    by (by rewrite Hperm, Hsplit).
  destruct (propagateNodes_inv next _ _ _ _ _ _ _ Hinv Hperm0 Hfold) as [Hinv' Hperm'].
  split; simpl; done.
Qed.

Lemma reaches_inv st st' : reaches tb g st st' → loopInv g st → loopInv g st'.
Proof.
  induction 1 as [st|st st1 st2 Hwl Hround Hreach IH]; intros Hinv; [done|].
  apply IH. by eapply round_inv.
Qed.

(** Seeding on a map that has an entry for every tracked node. *)
Lemma seedWorklist_fold (dm : gmap nat Z) (ns : list nat) :
  (∀ n, n ∈ ns → kind (node_at g n) ≠ kUndefined → is_Some (dm !! n)) →
  ∀ wl,
    foldl (seedAt g) (dm, wl) ns
    = (dm, wl ++ filter (λ n, kind (node_at g n) ≠ kUndefined
                              ∧ dm !! n = Some 0%Z) ns).
Proof.
  induction ns as [|n ns IH]; intros Hdom wl.
  - simpl. by rewrite app_nil_r.
  - cbn [foldl]. unfold seedAt at 2.
    destruct (decide (kind (node_at g n) = kUndefined)) as [Hu|Hu].
    + rewrite filter_cons_False by (intros [Hc _]; done).
      apply IH. intros m Hm. apply Hdom. by right.
    + destruct (Hdom n ltac:(by left) Hu) as [d Hd].
      destruct (decide (dm !! n = None)) as [Hnone|_]; [congruence|].
      destruct (decide (dm !! n = Some 0%Z)) as [Hz|Hz].
      * rewrite filter_cons_True by done.
        rewrite IH by (intros m Hm; apply Hdom; by right).
        by rewrite <- app_assoc.
      * rewrite filter_cons_False by (intros [_ Hc]; done).
        apply IH. intros m Hm. apply Hdom. by right.
Qed.

Lemma storedDegree_expected u :
  tracked g u → storedDegree g u = expectedDegree g [] u.
Proof.
  intros Hu. unfold expectedDegree.
  destruct (decide (kind (node_at g u) = kReturn)); [done|].
  rewrite storedDegree_small by (by apply tracked_arity).
  pose proof (pending_nil g u). lia.
Qed.

Lemma initSched_inv users :
  loopInv g (fst (initSched g users))
  ∧ pushed (fst (initSched g users)) = worklist (fst (initSched g users))
  ∧ admitted (fst (initSched g users)) = [].
Proof.
  unfold initSched.
  pose proof (BuildDegreeMap_lookup g) as Hlook.
  destruct (BuildDegreeMap g) as [dm outs]. simpl in Hlook.
  unfold seedWorklist. rewrite seedWorklist_fold; cycle 1.
  { intros n Hn Hk. rewrite Hlook.
    destruct (decide (n ∈ nodes g ∧ kind (node_at g n) ≠ kUndefined)) as [_|Hc];
      [done|]. exfalso. by apply Hc. }
  unfold loopInv. cbn [fst pushed dmap admitted worklist app].
  split; [|done]. split; [|done]. split.
  - apply NoDup_filter, (wf_nodup g Hwf).
  - intros u. rewrite Hlook. unfold tracked.
    destruct (decide (u ∈ nodes g ∧ kind (node_at g u) ≠ kUndefined)) as [Hu|Hu];
      [|done].
    f_equal. by apply storedDegree_expected.
  - intros u. rewrite list_elem_of_filter. split; [by intros [[_ ?] _]|].
    intros Hz. split; [|].
    + split; [|done]. rewrite Hlook in Hz.
      destruct (decide _) as [[_ ?]|_]; done.
    + rewrite Hlook in Hz. destruct (decide _) as [[? _]|_]; done.
Qed.
End Rounds.

(** The history variables move with the worklist: whatever a round appends to
    [worklist] it appends to [pushed], and [admitted] grows by the nodes the
    admission pass returned. *)
Lemma decrement_appends (us : list nat) :
  ∀ (dm : gmap nat Z) (wl ps : list nat) dm' wl' ps',
    foldl decrement (Some (dm, wl, ps)) us = Some (dm', wl', ps') →
    ∃ new, wl' = wl ++ new ∧ ps' = ps ++ new.
Proof.
  induction us as [|u us IH]; intros dm wl ps dm' wl' ps' Hfold.
  - injection Hfold as <- <- <-. exists []. by rewrite !app_nil_r.
  - cbn [foldl] in Hfold. unfold decrement in Hfold at 2. simpl in Hfold.
    destruct (dm !! u) as [d|]; simpl in Hfold;
      [|by rewrite decrement_None in Hfold].
    destruct (decide (to_unsigned (d - 1) = 0%Z)).
    + destruct (IH _ _ _ _ _ _ Hfold) as (new & -> & ->).
      exists (u :: new). by rewrite <- !app_assoc.
    + by apply (IH _ _ _ _ _ _ Hfold).
Qed.

Lemma propagateNodes_appends g (ns : list nat) :
  ∀ (dm : gmap nat Z) (wl ps : list nat) dm' wl' ps',
    foldl (propagateNode g) (Some (dm, wl, ps)) ns = Some (dm', wl', ps') →
    ∃ new, wl' = wl ++ new ∧ ps' = ps ++ new.
Proof.
  induction ns as [|n ns IH]; intros dm wl ps dm' wl' ps' Hfold.
  - injection Hfold as <- <- <-. exists []. by rewrite !app_nil_r.
  - cbn [foldl] in Hfold.
    destruct (propagateNode g (Some (dm, wl, ps)) n) as [[[dm1 wl1] ps1]|] eqn:Hstep;
      [|by rewrite propagateNodes_None in Hfold].
    rewrite propagateNode_eq in Hstep.
    destruct (decrement_appends _ _ _ _ _ _ _ Hstep) as (new1 & -> & ->).
    destruct (IH _ _ _ _ _ _ Hfold) as (new2 & -> & ->).
    exists (new1 ++ new2). by rewrite !app_assoc.
Qed.

Lemma round_history tb g st st' :
  round tb g st = Some st' →
  ∃ next kept new,
    admitPass tb (m_ExeResUsers st) (worklist st) next kept (m_ExeResUsers st')
    ∧ worklist st' = kept ++ new
    ∧ pushed st' = pushed st ++ new
    ∧ admitted st' = admitted st ++ next.
Proof.
  intros Hround. unfold round in Hround.
  destruct (greedyPickNextNodes_total tb (m_ExeResUsers st) (worklist st))
    as (next & kept & m' & Hpick & Hpass).
  rewrite Hpick in Hround. simpl in Hround.
  destruct (foldl (propagateNode g) (Some (dmap st, kept, pushed st)) next)
    as [[[dm wl] ps]|] eqn:Hfold; [|done].
  simpl in Hround. injection Hround as <-.
  destruct (propagateNodes_appends _ _ _ _ _ _ _ _ Hfold) as (new & -> & ->).
  exists next, kept, new. done.
Qed.

(** C9: on a well-formed graph, in every state the loop reaches, no node
    occurs twice in the history of worklist pushes; the nodes pushed so far
    are exactly the nodes whose degree-map count is zero (those seeded at
    zero and those a decrement brought to zero); and the pushed nodes are the
    admitted ones together with those still queued. *)
Theorem worklist_push_once (tb : DLATargetBackend) (g : Graph)
    (users : gmap nat (list ExeResUser)) (st : SchedState) :
  wellFormed g →
  reaches tb g (fst (initSched g users)) st →
  NoDup (pushed st)
  ∧ (∀ n, n ∈ pushed st ↔ dmap st !! n = Some 0%Z)
  ∧ (∀ n, n ∈ pushed st → n ∈ nodes g ∧ kind (node_at g n) ≠ kUndefined)
  ∧ pushed st ≡ₚ admitted st ++ worklist st.
Proof.
  intros Hwf Hreach.
  destruct (initSched_inv g Hwf users) as (Hinit & _ & _).
  destruct (reaches_inv tb g Hwf _ _ Hreach Hinit) as [Hinv Hperm].
  split; [apply (inv_nodup _ _ _ _ Hinv)|].
  split; [apply (inv_pushed _ _ _ _ Hinv)|].
  split; [|exact Hperm].
  intros n Hn. apply (inv_pushed _ _ _ _ Hinv) in Hn.
  by apply (inv_tracked g _ _ _ _ _ Hinv Hn).
Qed.

Lemma graphDangling_wellFormed : wellFormed Scenario.graphDangling.
Proof.
  split.
  - refine (bool_decide_unpack _ _). vm_compute. exact I.
  - refine (bool_decide_unpack _ _). vm_compute. exact I.
  - refine (bool_decide_unpack _ _). vm_compute. exact I.
Defined.

Lemma reaches_danglingDone :
  reaches Scenario.tenUnits Scenario.graphDangling
          (fst (initSched Scenario.graphDangling ∅)) Scenario.danglingDone.
Proof.
  eapply reaches_round; [by vm_compute|vm_compute; reflexivity|].
  eapply reaches_round; [by vm_compute|vm_compute; reflexivity|].
  apply reaches_here.
Defined.

Lemma worklist_push_once_witness :
  wellFormed Scenario.graphDangling
  ∧ reaches Scenario.tenUnits Scenario.graphDangling
            (fst (initSched Scenario.graphDangling ∅)) Scenario.danglingDone
  ∧ NoDup (pushed Scenario.danglingDone)
  ∧ (∀ n, n ∈ pushed Scenario.danglingDone
          ↔ dmap Scenario.danglingDone !! n = Some 0%Z)
  ∧ (∀ n, n ∈ pushed Scenario.danglingDone →
          n ∈ nodes Scenario.graphDangling
          ∧ kind (node_at Scenario.graphDangling n) ≠ kUndefined)
  ∧ pushed Scenario.danglingDone
    ≡ₚ admitted Scenario.danglingDone ++ worklist Scenario.danglingDone.
Proof.
  split; [exact graphDangling_wellFormed|].
  split; [exact reaches_danglingDone|].
  exact (worklist_push_once Scenario.tenUnits Scenario.graphDangling ∅
           Scenario.danglingDone graphDangling_wellFormed reaches_danglingDone).
Defined.

Lemma reaches_afterRound1 :
  reaches Scenario.oneUnit Scenario.graphAB
          (fst (initSched Scenario.graphAB ∅)) Scenario.afterRound1.
Proof.
  eapply reaches_round; [by vm_compute|vm_compute; reflexivity|].
  apply reaches_here.
Defined.

Lemma capacity_never_exceeded_witness :
  withinCapacity Scenario.oneUnit ∅
  ∧ reaches Scenario.oneUnit Scenario.graphAB
            (fst (initSched Scenario.graphAB ∅)) Scenario.afterRound1
  ∧ withinCapacity Scenario.oneUnit (m_ExeResUsers Scenario.afterRound1).
Proof.
  split; [apply withinCapacity_empty|].
  split; [exact reaches_afterRound1|].
  exact (proj1 (capacity_never_exceeded Scenario.oneUnit Scenario.graphAB ∅
                  Scenario.afterRound1 (withinCapacity_empty Scenario.oneUnit)
                  reaches_afterRound1)).
Defined.

(** ** A complete run

    One operator whose output is the graph output, ten units per class: the
    Store marker is appended, both nodes are admitted in two rounds, and the
    pass reports that the module is unchanged. *)
Lemma graphOutStored_wellFormed : wellFormed Scenario.graphOutStored.
Proof.
  split.
  - refine (bool_decide_unpack _ _). vm_compute. exact I.
  - refine (bool_decide_unpack _ _). vm_compute. exact I.
  - refine (bool_decide_unpack _ _). vm_compute. exact I.
Qed.

Example runOnModule_graphOut :
  ∃ p, runOnModule 2 (mkPass (Some Scenario.tenUnits) ∅ Scenario.graphOut [] [])
       = Returns kModuleNoChanged p
       ∧ nodes (pass_graph p) = [1; 2]
       ∧ pass_ExeResUsers p = {[ Scenario.R := [mkUser 1 5; mkUser 2 5] ]}
       ∧ pass_outs p = []
       ∧ pass_errs p = [].
Proof. eexists. vm_compute. repeat split; reflexivity. Qed.

(** * Further properties *)

(** ** [updateResList] as it behaves *)

Lemma elapse_finished_iff minCycle (u : ExeResUser) :
  (0 ≤ minCycle ≤ remainCycles u)%Z → (remainCycles u < 2 ^ 32)%Z →
  remainCycles (elapse minCycle u) = 0%Z ↔ remainCycles u = minCycle.
Proof.
  intros Hmin Hu. unfold elapse. simpl.
  rewrite to_unsigned_small by lia. lia.
Qed.

(** X1: what [updateResList] leaves in each user list: every count is lowered
    by the returned minimum (modulo [2^32]), and then as many entries as
    reached zero are cut off the front; resources without an entry still have
    none. *)
Theorem updateResList_shape (m : gmap nat (list ExeResUser)) (r : nat) :
  fst (updateResList m) !! r
  = (λ userList,
       drop (length (filter (λ u, remainCycles u = 0%Z)
                            (map (elapse (snd (updateResList m))) userList)))
            (map (elapse (snd (updateResList m))) userList))
    <$> m !! r.
Proof.
  simpl. rewrite lookup_fmap. destruct (m !! r) as [l|]; [|done].
  simpl. by rewrite updateUserList_drops_front.
Qed.

(** X2: the value [updateResList] returns is at most the remaining count of
    every user in the ledger and at most [UINT_MAX]; unless it is [UINT_MAX],
    it is the remaining count of one of them. *)
Theorem updateResList_minimum (m : gmap nat (list ExeResUser)) :
  (∀ r userList u, m !! r = Some userList → u ∈ userList →
                   (snd (updateResList m) ≤ remainCycles u)%Z)
  ∧ (snd (updateResList m) = UINT_MAX
     ∨ ∃ r userList u, m !! r = Some userList ∧ u ∈ userList
                       ∧ remainCycles u = snd (updateResList m)).
Proof. exact (findMinCycle_spec m). Qed.

Lemma findMinCycle_active (m : gmap nat (list ExeResUser)) r0 l0 u0 :
  (∀ r userList u, m !! r = Some userList → u ∈ userList →
                   (0 ≤ remainCycles u < 2 ^ 32)%Z) →
  m !! r0 = Some l0 → u0 ∈ l0 →
  (0 ≤ findMinCycle m)%Z
  ∧ ∃ r userList u, m !! r = Some userList ∧ u ∈ userList
                    ∧ remainCycles u = findMinCycle m.
Proof.
  intros Hrange Hr0 Hu0.
  destruct (findMinCycle_spec m) as [Hle [Hmax|Hatt]].
  - pose proof (Hle r0 l0 u0 Hr0 Hu0). pose proof (Hrange r0 l0 u0 Hr0 Hu0).
    unfold UINT_MAX in Hmax. split; [lia|].
    exists r0, l0, u0. split; [done|]. split; [done|]. lia.
  - split; [|done]. destruct Hatt as (r & l & u & Hr & Hu & Heq).
    pose proof (Hrange r l u Hr Hu). lia.
Qed.

(** X3: when the counts are 32-bit values and some user is active,
    [updateResList] frees at least one unit: some user list gets shorter, and
    no list gets longer. *)
Theorem updateResList_progress (m : gmap nat (list ExeResUser)) r0 l0 u0 :
  (∀ r userList u, m !! r = Some userList → u ∈ userList →
                   (0 ≤ remainCycles u < 2 ^ 32)%Z) →
  m !! r0 = Some l0 → u0 ∈ l0 →
  (∃ r userList userList',
     m !! r = Some userList ∧ fst (updateResList m) !! r = Some userList'
     ∧ length userList' < length userList)
  ∧ (∀ r userList userList',
       m !! r = Some userList → fst (updateResList m) !! r = Some userList' →
       length userList' ≤ length userList).
Proof.
  intros Hrange Hr0 Hu0. split.
  - destruct (findMinCycle_active m r0 l0 u0 Hrange Hr0 Hu0)
      as (Hpos & r & l & u & Hr & Hu & Heq).
    exists r, l. eexists. split; [done|]. split.
    + simpl. rewrite lookup_fmap, Hr. reflexivity.
    + rewrite updateUserList_drops_front, length_drop, length_map.
      assert (Hfin : elapse (findMinCycle m) u
                     ∈ filter (λ u, remainCycles u = 0%Z)
                              (map (elapse (findMinCycle m)) l)).
      { apply list_elem_of_filter. split.
        - apply elapse_finished_iff; [lia|by apply (Hrange r l u)|done].
        - apply list_elem_of_fmap. by exists u. }
      pose proof (length_filter (λ u, remainCycles u = 0%Z)
                                (map (elapse (findMinCycle m)) l)) as Hle.
      rewrite length_map in Hle.
      destruct (filter (λ u, remainCycles u = 0%Z)
                       (map (elapse (findMinCycle m)) l)) as [|x xs] eqn:Hf;
        [by apply elem_of_nil in Hfin|].
      simpl in *. lia.
  - intros r l l' Hr Hl'. simpl in Hl'. rewrite lookup_fmap, Hr in Hl'.
    injection Hl' as <-. apply updateUserList_length.
Qed.

Lemma updateResList_progress_witness :
  (∃ r userList userList',
     Scenario.ledger53 !! r = Some userList
     ∧ fst (updateResList Scenario.ledger53) !! r = Some userList'
     ∧ length userList' < length userList)
  ∧ (∀ r userList userList',
       Scenario.ledger53 !! r = Some userList →
       fst (updateResList Scenario.ledger53) !! r = Some userList' →
       length userList' ≤ length userList).
Proof.
  apply (updateResList_progress Scenario.ledger53 Scenario.R
           [mkUser Scenario.A 5; mkUser Scenario.B 3] (mkUser Scenario.A 5)).
  - intros r l u Hr Hu. unfold Scenario.ledger53 in Hr.
    apply lookup_singleton_Some in Hr as [_ <-].
    apply elem_of_cons in Hu as [->|Hu]; [simpl; lia|].
    apply elem_of_cons in Hu as [->|Hu]; [simpl; lia|].
    by apply elem_of_nil in Hu.
  - reflexivity.
  - by left.
Defined.

Lemma filter_all {A} (P : A → Prop) `{∀ x, Decision (P x)} (l : list A) :
  Forall P l → filter P l = l.
Proof.
  induction 1 as [|x l Hx Hl IH]; [done|].
  by rewrite filter_cons_True, IH.
Qed.

(** X4: when every user in the ledger has the same 32-bit remaining count,
    [updateResList] releases them all: every user list becomes empty, and the
    common count is returned if there is a user at all. *)
Theorem updateResList_uniform (m : gmap nat (list ExeResUser)) (c : Z) :
  (0 ≤ c < 2 ^ 32)%Z →
  (∀ r userList u, m !! r = Some userList → u ∈ userList → remainCycles u = c) →
  (∀ r userList, m !! r = Some userList → fst (updateResList m) !! r = Some [])
  ∧ (∀ r userList u, m !! r = Some userList → u ∈ userList →
                     snd (updateResList m) = c).
Proof.
  intros Hc Hall.
  assert (Hmin : ∀ r l u, m !! r = Some l → u ∈ l → findMinCycle m = c).
  { intros r l u Hr Hu.
    destruct (findMinCycle_active m r l u) as (_ & r' & l' & u' & Hr' & Hu' & Heq);
      [|done|done|].
    - intros r1 l1 u1 Hr1 Hu1. by rewrite (Hall r1 l1 u1 Hr1 Hu1).
    - by rewrite <- Heq, (Hall r' l' u' Hr' Hu'). }
  split; [|exact Hmin].
  intros r l Hr. simpl. rewrite lookup_fmap, Hr. simpl. f_equal.
  rewrite updateUserList_drops_front.
  destruct l as [|u l]; [done|].
  rewrite (filter_all (λ u, remainCycles u = 0%Z)).
  - by rewrite drop_all.
  - apply Forall_forall. intros x Hx. apply list_elem_of_fmap in Hx as (y & -> & Hy).
    apply elapse_finished_iff.
    + rewrite (Hmin r (u :: l) u Hr ltac:(by left)), (Hall r (u :: l) y Hr Hy). lia.
    + rewrite (Hall r (u :: l) y Hr Hy). lia.
    + by rewrite (Hmin r (u :: l) u Hr ltac:(by left)), (Hall r (u :: l) y Hr Hy).
Qed.

Lemma updateResList_uniform_witness :
  (∀ r userList,
     ({[ Scenario.R := [mkUser Scenario.A 5; mkUser Scenario.B 5] ]}
        : gmap nat (list ExeResUser)) !! r = Some userList →
     fst (updateResList {[ Scenario.R := [mkUser Scenario.A 5; mkUser Scenario.B 5] ]})
       !! r = Some [])
  ∧ (∀ r userList u,
       ({[ Scenario.R := [mkUser Scenario.A 5; mkUser Scenario.B 5] ]}
          : gmap nat (list ExeResUser)) !! r = Some userList →
       u ∈ userList →
       snd (updateResList {[ Scenario.R := [mkUser Scenario.A 5; mkUser Scenario.B 5] ]})
       = 5%Z).
Proof.
  apply (updateResList_uniform
           {[ Scenario.R := [mkUser Scenario.A 5; mkUser Scenario.B 5] ]} 5%Z).
  - lia.
  - intros r l u Hr Hu. apply lookup_singleton_Some in Hr as [_ <-].
    apply elem_of_cons in Hu as [->|Hu]; [reflexivity|].
    apply elem_of_cons in Hu as [->|Hu]; [reflexivity|].
    by apply elem_of_nil in Hu.
Defined.

(** ** What one admission pass does to the ledger *)

Section PickLedger.
Context (tb : DLATargetBackend).

Lemma greedyPickNextNodes_admitPass_inv (m : gmap nat (list ExeResUser))
    pCands next kept m' :
  greedyPickNextNodes tb m pCands = Some (next, kept, m') →
  admitPass tb m pCands next kept m'.
Proof.
  intros Hpick.
  destruct (greedyPickNextNodes_total tb m pCands) as (n2 & k2 & m2 & Heq & Hpass).
  rewrite Heq in Hpick. by injection Hpick as <- <- <-.
Qed.

Lemma addExeResUser_default (m : gmap nat (list ExeResUser)) res n r :
  default [] (addExeResUser tb m res n !! r)
  = default [] (m !! r)
    ++ (if decide (res = r) then [mkUser n (to_unsigned (getOperatorCost tb n))]
        else []).
Proof.
  unfold addExeResUser. destruct (decide (res = r)) as [->|Hne].
  - by rewrite lookup_insert_eq.
  - rewrite lookup_insert_ne by done. by rewrite app_nil_r.
Qed.

Lemma initEntry_default (m : gmap nat (list ExeResUser)) res r :
  default [] (initEntry m res !! r) = default [] (m !! r).
Proof.
  destruct (decide (r = res)) as [->|Hne].
  - by rewrite initEntry_lookup.
  - by rewrite initEntry_lookup_ne.
Qed.

Lemma admitPass_ledger m cands next kept m' :
  admitPass tb m cands next kept m' →
  ∀ r, default [] (m' !! r)
       = default [] (m !! r)
         ++ map (λ n, mkUser n (to_unsigned (getOperatorCost tb n)))
                (filter (λ n, queryExeResType tb n = r) next).
Proof.
  induction 1 as [m|m n cands next kept m' Hfree Hpass IH
                   |m n cands next kept m' Hfree Hpass IH]; intros r.
  - simpl. by rewrite app_nil_r.
  - rewrite IH, addExeResUser_default, <- app_assoc. f_equal.
    destruct (decide (queryExeResType tb n = r)) as [Heq|Hne].
    + by rewrite filter_cons_True.
    + by rewrite filter_cons_False.
  - by rewrite IH, initEntry_default.
Qed.

(** X5: the ledger after [greedyPickNextNodes] is the ledger before it with,
    for every resource class, one user appended per admitted node of that
    class, in admission order, each with its cost as a 32-bit count; no user
    is removed or changed. *)
Theorem greedyPickNextNodes_ledger (m : gmap nat (list ExeResUser))
    (pCands next kept : list nat) (m' : gmap nat (list ExeResUser)) (r : nat) :
  greedyPickNextNodes tb m pCands = Some (next, kept, m') →
  default [] (m' !! r)
  = default [] (m !! r)
    ++ map (λ n, mkUser n (to_unsigned (getOperatorCost tb n)))
           (filter (λ n, queryExeResType tb n = r) next).
Proof.
  intros Hpick. apply (admitPass_ledger m pCands next kept m').
  by apply greedyPickNextNodes_admitPass_inv.
Qed.

Lemma admitPass_monotone m cands next kept m' r :
  admitPass tb m cands next kept m' →
  length (default [] (m !! r)) ≤ length (default [] (m' !! r)).
Proof.
  intros Hpass. rewrite (admitPass_ledger _ _ _ _ _ Hpass r), length_app. lia.
Qed.

Lemma hasFreeUnit_antitone (m m' : gmap nat (list ExeResUser)) r :
  length (default [] (m !! r)) ≤ length (default [] (m' !! r)) →
  ¬ hasFreeUnit tb m r → ¬ hasFreeUnit tb m' r.
Proof. unfold hasFreeUnit. intros Hle Hfull Hfree. apply Hfull. lia. Qed.

Lemma admitPass_starved m cands next kept m' n :
  admitPass tb m cands next kept m' →
  n ∈ cands → ¬ hasFreeUnit tb m (queryExeResType tb n) →
  n ∈ kept.
Proof.
  induction 1 as [m|m x cands next kept m' Hfree Hpass IH
                   |m x cands next kept m' Hfree Hpass IH]; intros Hin Hfull.
  - by apply elem_of_nil in Hin.
  - apply elem_of_cons in Hin as [->|Hin]; [done|].
    apply IH; [done|].
    apply (hasFreeUnit_antitone m); [|done].
    rewrite addExeResUser_default, length_app. lia.
  - apply elem_of_cons in Hin as [->|Hin]; [by left|].
    right. apply IH; [done|].
    apply (hasFreeUnit_antitone m); [|done].
    by rewrite initEntry_default.
Qed.

Lemma round_starved g st st' n :
  round tb g st = Some st' →
  n ∈ worklist st →
  ¬ hasFreeUnit tb (m_ExeResUsers st) (queryExeResType tb n) →
  n ∈ worklist st'
  ∧ ¬ hasFreeUnit tb (m_ExeResUsers st') (queryExeResType tb n).
Proof.
  intros Hround Hin Hfull.
  destruct (round_history tb g st st' Hround)
    as (next & kept & new & Hpass & Hwl & _ & _).
  split.
  - rewrite Hwl, elem_of_app. left. by eapply admitPass_starved.
  - apply (hasFreeUnit_antitone (m_ExeResUsers st)); [|done].
    by eapply admitPass_monotone.
Qed.

(** X6: a queued node whose resource class has no free unit is never
    admitted, because no round releases a unit: from such a state the [while]
    loop does not finish, whatever the number of rounds. *)
Theorem scheduleLoop_starved (g : Graph) (st : SchedState) (n : nat) :
  n ∈ worklist st →
  ¬ hasFreeUnit tb (m_ExeResUsers st) (queryExeResType tb n) →
  ∀ fuel st', scheduleLoop tb g fuel st ≠ Finished st'.
Proof.
  intros Hin Hfull fuel. revert st Hin Hfull.
  induction fuel as [|fuel IH]; intros st Hin Hfull st' Hrun; simpl in Hrun.
  - destruct (worklist st); [by apply elem_of_nil in Hin|done].
  - destruct (worklist st) as [|x wl] eqn:Hwl; [by apply elem_of_nil in Hin|].
    destruct (round tb g st) as [st1|] eqn:Hround; [|done].
    rewrite <- Hwl in Hin.
    destruct (round_starved g st st1 n Hround Hin Hfull) as [Hin1 Hfull1].
    by apply (IH st1 Hin1 Hfull1 st').
Qed.
End PickLedger.

Lemma scheduleLoop_starved_witness :
  Scenario.B ∈ worklist Scenario.afterRound1
  ∧ ∀ fuel st',
      scheduleLoop Scenario.oneUnit Scenario.graphAB fuel Scenario.afterRound1
      ≠ Finished st'.
Proof.
  split; [by left|].
  apply (scheduleLoop_starved Scenario.oneUnit Scenario.graphAB
           Scenario.afterRound1 Scenario.B).
  - by left.
  - vm_compute. intros H. discriminate H.
Defined.

Lemma greedyPickNextNodes_ledger_witness :
  default [] (({[ Scenario.R := [mkUser Scenario.A 5] ]}
                 : gmap nat (list ExeResUser)) !! Scenario.R)
  = default [] ((∅ : gmap nat (list ExeResUser)) !! Scenario.R)
    ++ map (λ n, mkUser n (to_unsigned (getOperatorCost Scenario.oneUnit n)))
           (filter (λ n, queryExeResType Scenario.oneUnit n = Scenario.R)
                   [Scenario.A]).
Proof.
  apply (greedyPickNextNodes_ledger Scenario.oneUnit ∅
           [Scenario.A; Scenario.B] [Scenario.A] [Scenario.B]
           {[ Scenario.R := [mkUser Scenario.A 5] ]} Scenario.R).
  vm_compute. reflexivity.
Defined.

(** ** Termination when no resource class can fill up *)

Lemma decrement_total (us : list nat) :
  ∀ (dm : gmap nat Z) (wl ps : list nat),
    (∀ u, u ∈ us → is_Some (dm !! u)) →
    ∃ dm' wl' ps',
      foldl decrement (Some (dm, wl, ps)) us = Some (dm', wl', ps')
      ∧ ∀ u, is_Some (dm !! u) → is_Some (dm' !! u).
Proof.
  induction us as [|u0 us IH]; intros dm wl ps Hdom.
  - exists dm, wl, ps. done.
  - destruct (Hdom u0 ltac:(by left)) as [d Hd].
    cbn [foldl]. unfold decrement at 2. simpl. rewrite Hd. simpl.
    assert (Hdom' : ∀ u, is_Some (dm !! u)
                         → is_Some (<[u0 := to_unsigned (d - 1)]> dm !! u)).
    { intros u Hu. destruct (decide (u = u0)) as [->|Hne].
      - by rewrite lookup_insert_eq.
      - by rewrite lookup_insert_ne. }
    destruct (decide (to_unsigned (d - 1) = 0%Z)).
    + destruct (IH (<[u0 := to_unsigned (d - 1)]> dm) (wl ++ [u0]) (ps ++ [u0]))
        as (dm' & wl' & ps' & Heq & Hpres).
      { intros u Hu. apply Hdom'. apply Hdom. by right. }
      exists dm', wl', ps'. split; [done|]. intros u Hu. by apply Hpres, Hdom'.
    + destruct (IH (<[u0 := to_unsigned (d - 1)]> dm) wl ps)
        as (dm' & wl' & ps' & Heq & Hpres).
      { intros u Hu. apply Hdom'. apply Hdom. by right. }
      exists dm', wl', ps'. split; [done|]. intros u Hu. by apply Hpres, Hdom'.
Qed.

Lemma propagateNodes_total g (next : list nat) :
  ∀ (dm : gmap nat Z) (wl ps : list nat),
    (∀ u, tracked g u → is_Some (dm !! u)) →
    (∀ n u, n ∈ next → u ∈ demands g n → tracked g u) →
    ∃ r, foldl (propagateNode g) (Some (dm, wl, ps)) next = Some r.
Proof.
  induction next as [|n next IH]; intros dm wl ps Hdom Hdem.
  - by eexists.
  - cbn [foldl]. rewrite propagateNode_eq.
    destruct (decrement_total (demands g n) dm wl ps)
      as (dm' & wl' & ps' & -> & Hpres).
    { intros u Hu. apply Hdom. apply (Hdem n u); [by left|done]. }
    apply IH.
    + intros u Hu. by apply Hpres, Hdom.
    + intros m u Hm Hu. apply (Hdem m u); [by right|done].
Qed.

Section Termination.
Context (tb : DLATargetBackend) (g : Graph).
Context (Hwf : wellFormed g) (Huses : usesTracked g).

Lemma pushed_tracked st n : loopInv g st → n ∈ pushed st → tracked g n.
Proof.
  intros [Hinv _] Hn. apply (inv_pushed _ _ _ _ Hinv) in Hn.
  by apply (inv_tracked g _ _ _ _ _ Hinv Hn).
Qed.

Lemma worklist_pushed st n : loopInv g st → n ∈ worklist st → n ∈ pushed st.
Proof. intros [_ Hperm] Hn. rewrite Hperm, elem_of_app. by right. Qed.

Lemma round_total st : loopInv g st → ∃ st', round tb g st = Some st'.
Proof.
  intros Hinv. unfold round.
  destruct (greedyPickNextNodes_total tb (m_ExeResUsers st) (worklist st))
    as (next & kept & m' & -> & Hpass).
  simpl.
  destruct (propagateNodes_total g next (dmap st) kept (pushed st)) as [[[dm wl] ps] ->].
  - intros u Hu. destruct Hinv as [Hinv _].
    rewrite (inv_dmap _ _ _ _ Hinv), decide_True by done. done.
  - intros n u Hn Hu.
    apply admitPass_sublists in Hpass as (Hsub & _ & _).
    assert (Hnt : tracked g n).
    { apply (pushed_tracked st); [done|]. apply worklist_pushed; [done|].
      by apply (elem_of_sublist _ _ _ Hn Hsub). }
    unfold demands in Hu. apply list_elem_of_filter in Hu as [Hk Hu].
    unfold usesTracked in Huses. rewrite Forall_forall in Huses.
    specialize (Huses n (proj1 Hnt)). rewrite Forall_forall in Huses.
    destruct (Huses u Hu); done.
  - simpl. by eexists.
Qed.

Lemma round_ledgerBound st st' :
  round tb g st = Some st' → ledgerBound st → ledgerBound st'.
Proof.
  intros Hround Hb r.
  destruct (round_history tb g st st' Hround)
    as (next & kept & new & Hpass & _ & _ & ->).
  rewrite (admitPass_ledger tb _ _ _ _ _ Hpass r), !length_app, length_map.
  pose proof (length_filter (λ n, queryExeResType tb n = r) next).
  specialize (Hb r). lia.
Qed.

Lemma round_progress st st' n rest :
  worklist st = n :: rest →
  hasFreeUnit tb (m_ExeResUsers st) (queryExeResType tb n) →
  round tb g st = Some st' →
  length (admitted st) < length (admitted st').
Proof.
  intros Hwl Hfree Hround.
  destruct (round_history tb g st st' Hround)
    as (next & kept & new & Hpass & _ & _ & ->).
  rewrite Hwl in Hpass. inversion Hpass; subst; [|done].
  rewrite length_app. simpl. lia.
Qed.

Lemma admitted_bound st :
  loopInv g st → length (admitted st) + length (worklist st) ≤ length (nodes g).
Proof.
  intros Hinv. pose proof Hinv as [Hsched Hperm].
  rewrite <- length_app, <- Hperm.
  apply submseteq_length, NoDup_submseteq; [apply (inv_nodup _ _ _ _ Hsched)|].
  intros x Hx. by apply (pushed_tracked st x Hinv).
Qed.

Lemma scheduleLoop_finishes (Hcap : amplyProvisioned tb g) fuel :
  ∀ st, loopInv g st → ledgerBound st →
        length (nodes g) - length (admitted st) ≤ fuel →
        ∃ st', scheduleLoop tb g fuel st = Finished st'.
Proof.
  induction fuel as [|fuel IH]; intros st Hinv Hb Hfuel.
  - pose proof (admitted_bound st Hinv). simpl.
    destruct (worklist st) as [|n rest]; [by eexists|]. simpl in *. lia.
  - simpl. destruct (worklist st) as [|n rest] eqn:Hwl; [by eexists|].
    destruct (round_total st Hinv) as [st1 Hround]. rewrite Hround.
    pose proof (admitted_bound st Hinv) as Hadm. rewrite Hwl in Hadm. simpl in Hadm.
    assert (Hfree : hasFreeUnit tb (m_ExeResUsers st) (queryExeResType tb n)).
    { unfold hasFreeUnit. specialize (Hb (queryExeResType tb n)).
      unfold amplyProvisioned in Hcap. rewrite Forall_forall in Hcap.
      assert (Hn : n ∈ nodes g).
      { apply (pushed_tracked st n Hinv), worklist_pushed; [done|].
        rewrite Hwl. by left. }
      specialize (Hcap n Hn). lia. }
    pose proof (round_progress st st1 n rest Hwl Hfree Hround).
    apply IH.
    + by apply (round_inv tb g Hwf st st1).
    + by apply (round_ledgerBound st st1).
    + lia.
Qed.
End Termination.

(** X7: on a well-formed graph in which every user of a node is tracked, and
    with a cost model whose resource classes each have at least as many units
    as the graph has nodes, the [while] loop finishes with an empty worklist
    within as many rounds as there are nodes. *)
Theorem scheduleLoop_terminates (tb : DLATargetBackend) (g : Graph) :
  wellFormed g → usesTracked g → amplyProvisioned tb g →
  ∃ st', scheduleLoop tb g (length (nodes g)) (fst (initSched g ∅)) = Finished st'
         ∧ worklist st' = [].
Proof.
  intros Hwf Huses Hcap.
  destruct (initSched_inv g Hwf ∅) as (Hinv & _ & Hadm).
  destruct (scheduleLoop_finishes tb g Hwf Huses Hcap (length (nodes g))
              (fst (initSched g ∅)) Hinv) as [st' Hrun].
  - intros r. rewrite initSched_ledger, lookup_empty. simpl. lia.
  - lia.
  - exists st'. split; [done|].
    by destruct (scheduleLoop_reaches tb g _ _ _ Hrun).
Qed.

Lemma scheduleLoop_terminates_witness :
  ∃ st', scheduleLoop Scenario.tenUnits Scenario.graphOutStored
           (length (nodes Scenario.graphOutStored))
           (fst (initSched Scenario.graphOutStored ∅)) = Finished st'
         ∧ worklist st' = [].
Proof.
  apply (scheduleLoop_terminates Scenario.tenUnits Scenario.graphOutStored).
  - split.
    + refine (bool_decide_unpack _ _). vm_compute. exact I.
    + refine (bool_decide_unpack _ _). vm_compute. exact I.
    + refine (bool_decide_unpack _ _). vm_compute. exact I.
  - refine (bool_decide_unpack _ _). vm_compute. exact I.
  - refine (bool_decide_unpack _ _). vm_compute. exact I.
Defined.

(** ** The order and the extent of the admissions *)

Lemma filter_none {A} (P : A → Prop) `{∀ x, Decision (P x)} (l : list A) :
  Forall (λ x, ¬ P x) l → filter P l = [].
Proof.
  induction 1 as [|x l Hx Hl IH]; [done|].
  by rewrite filter_cons_False.
Qed.

Section Order.
Context (tb : DLATargetBackend) (g : Graph) (Hwf : wellFormed g).

Lemma pushed_ready st n v p :
  loopInv g st → n ∈ pushed st → kind (node_at g n) ≠ kReturn →
  v ∈ inputs (node_at g n) → node (value_at g v) = Some p →
  p ∈ admitted st.
Proof.
  intros [Hinv _] Hn Hk Hv Hp.
  apply (inv_pushed _ _ _ _ Hinv) in Hn.
  pose proof (inv_tracked g _ _ _ _ _ Hinv Hn) as Ht.
  rewrite (inv_dmap _ _ _ _ Hinv), decide_True in Hn by done.
  injection Hn as Hn. unfold expectedDegree in Hn.
  rewrite decide_False in Hn by done.
  assert (Hnil : filter (awaits g (admitted st)) (inputs (node_at g n)) = []).
  { apply length_zero_iff_nil. unfold pending in Hn. lia. }
  destruct (decide (p ∈ admitted st)) as [?|Hnot]; [done|].
  exfalso. apply (filter_nil_not_elem_of _ _ v Hnil); [|done].
  by apply (awaits_Some g _ v p Hp).
Qed.

Lemma round_ordered st st' :
  loopInv g st → admittedOrdered g (admitted st) →
  round tb g st = Some st' → admittedOrdered g (admitted st').
Proof.
  intros Hinv Hord Hround i n v p Hi Hk Hv Hp.
  destruct (round_history tb g st st' Hround)
    as (next & kept & new & Hpass & _ & _ & Hadm).
  rewrite Hadm in Hi |- *.
  apply lookup_app_Some in Hi as [Hi|[Hlen Hi]].
  - destruct (Hord i n v p Hi Hk Hv Hp) as (j & Hj & Hlook).
    exists j. split; [done|]. by apply lookup_app_l_Some.
  - apply list_elem_of_lookup_2 in Hi.
    apply admitPass_sublists in Hpass as (Hsub & _ & _).
    assert (Hn : n ∈ pushed st).
    { destruct Hinv as [_ Hperm]. rewrite Hperm, elem_of_app. right.
      by apply (elem_of_sublist _ _ _ Hi Hsub). }
    pose proof (pushed_ready st n v p Hinv Hn Hk Hv Hp) as Hpa.
    apply list_elem_of_lookup_1 in Hpa as [j Hj].
    exists j. pose proof (lookup_lt_Some _ _ _ Hj).
    split; [lia|]. by apply lookup_app_l_Some.
Qed.

Lemma reaches_ordered st st' :
  reaches tb g st st' →
  loopInv g st → admittedOrdered g (admitted st) →
  loopInv g st' ∧ admittedOrdered g (admitted st').
Proof.
  induction 1 as [st|st st1 st2 Hwl Hround Hreach IH]; intros Hinv Hord; [done|].
  apply IH; [by eapply round_inv|by eapply round_ordered].
Qed.

Lemma finished_admits_all st :
  producersFirst g → loopInv g st → worklist st = [] →
  ∀ i u, nodes g !! i = Some u →
         kind (node_at g u) ≠ kUndefined → kind (node_at g u) ≠ kReturn →
         u ∈ admitted st.
Proof.
  intros Htopo Hinv Hdone i.
  induction i as [i IH] using lt_wf_ind. intros u Hi Hku Hkr.
  pose proof Hinv as [Hsched Hperm].
  assert (Ht : tracked g u) by (split; [by eapply list_elem_of_lookup_2|done]).
  assert (Hpend : filter (awaits g (admitted st)) (inputs (node_at g u)) = []).
  { apply filter_none, Forall_forall. intros v Hv.
    unfold producersFirst in Htopo. rewrite Forall_forall in Htopo.
    specialize (Htopo (i, u) (elem_of_lookup_imap_2 pair _ _ _ Hi)).
    simpl in Htopo. rewrite Forall_forall in Htopo. specialize (Htopo v Hv).
    unfold producedEarlier in Htopo.
    destruct (node (value_at g v)) as [p|] eqn:Hp; [|by apply awaits_None].
    destruct Htopo as (Hin & Hpu & Hpr).
    apply elem_of_take in Hin as (j & Hj & Hlt).
    rewrite (awaits_Some g _ v p Hp). intros Hnot. apply Hnot.
    by apply (IH j Hlt p). }
  assert (Hz : dmap st !! u = Some 0%Z).
  { rewrite (inv_dmap _ _ _ _ Hsched), decide_True by done.
    unfold expectedDegree. rewrite decide_False by done.
    unfold pending. by rewrite Hpend. }
  apply (inv_pushed _ _ _ _ Hsched) in Hz.
  rewrite Hperm, Hdone, app_nil_r in Hz. done.
Qed.
End Order.

(** X8: the nodes are admitted in an order that respects the data flow: in
    every state the loop reaches on a well-formed graph, each producer of an
    input of an admitted node (other than a terminal node) was admitted
    before it. *)
Theorem admitted_after_producers (tb : DLATargetBackend) (g : Graph)
    (users : gmap nat (list ExeResUser)) (st : SchedState)
    (i n v p : nat) :
  wellFormed g →
  reaches tb g (fst (initSched g users)) st →
  admitted st !! i = Some n → kind (node_at g n) ≠ kReturn →
  v ∈ inputs (node_at g n) → node (value_at g v) = Some p →
  ∃ j, j < i ∧ admitted st !! j = Some p.
Proof.
  intros Hwf Hreach.
  destruct (initSched_inv g Hwf users) as (Hinit & _ & Hadm).
  destruct (reaches_ordered tb g Hwf _ _ Hreach Hinit) as [_ Hord].
  - rewrite Hadm. intros i0 n0 v0 p0 H0. by rewrite lookup_nil in H0.
  - apply Hord.
Qed.

Lemma admitted_after_producers_witness :
  ∃ j, j < 1 ∧ admitted Scenario.danglingDone !! j = Some 1.
Proof.
  apply (admitted_after_producers Scenario.tenUnits Scenario.graphDangling ∅
           Scenario.danglingDone 1 3 7 1).
  - exact graphDangling_wellFormed.
  - exact reaches_danglingDone.
  - reflexivity.
  - vm_compute. discriminate.
  - vm_compute. right. left.
  - reflexivity.
Defined.

(** X9: when the node list is in topological order, a run that ends has
    admitted every listed node that is neither the undefined nor the terminal
    node, each exactly once. *)
Theorem finished_schedules_every_node (tb : DLATargetBackend) (g : Graph)
    (users : gmap nat (list ExeResUser)) (st : SchedState) :
  wellFormed g → producersFirst g →
  reaches tb g (fst (initSched g users)) st →
  worklist st = [] →
  NoDup (admitted st)
  ∧ ∀ u, u ∈ nodes g →
         kind (node_at g u) ≠ kUndefined → kind (node_at g u) ≠ kReturn →
         u ∈ admitted st.
Proof.
  intros Hwf Htopo Hreach Hdone.
  destruct (initSched_inv g Hwf users) as (Hinit & _ & _).
  pose proof (reaches_inv tb g Hwf _ _ Hreach Hinit) as Hinv.
  split.
  - destruct Hinv as [Hsched Hperm].
    pose proof (inv_nodup _ _ _ _ Hsched) as Hnd.
    rewrite Hperm, Hdone, app_nil_r in Hnd. done.
  - intros u Hu Hku Hkr. apply list_elem_of_lookup_1 in Hu as [i Hi].
    by apply (finished_admits_all g st Htopo Hinv Hdone i u).
Qed.

Lemma finished_schedules_every_node_witness :
  NoDup (admitted Scenario.danglingDone)
  ∧ ∀ u, u ∈ nodes Scenario.graphDangling →
         kind (node_at Scenario.graphDangling u) ≠ kUndefined →
         kind (node_at Scenario.graphDangling u) ≠ kReturn →
         u ∈ admitted Scenario.danglingDone.
Proof.
  apply (finished_schedules_every_node Scenario.tenUnits Scenario.graphDangling ∅
           Scenario.danglingDone).
  - exact graphDangling_wellFormed.
  - refine (bool_decide_unpack _ _). vm_compute. exact I.
  - exact reaches_danglingDone.
  - reflexivity.
Defined.

(** ** The degree map and the seeding of the worklist *)

(** X10: [BuildDegreeMap] gives an entry to exactly the listed nodes that are
    not of the undefined kind, and every entry is a 32-bit value that does
    not exceed the node's number of inputs when that number fits. *)
Theorem BuildDegreeMap_domain (g : Graph) (n : nat) :
  (is_Some (fst (BuildDegreeMap g) !! n)
   ↔ n ∈ nodes g ∧ kind (node_at g n) ≠ kUndefined)
  ∧ ∀ d, fst (BuildDegreeMap g) !! n = Some d →
         (0 ≤ d < 2 ^ 32)%Z
         ∧ ((Z.of_nat (length (inputs (node_at g n))) < 2 ^ 32)%Z →
            (d ≤ Z.of_nat (length (inputs (node_at g n))))%Z).
Proof.
  rewrite BuildDegreeMap_lookup. split.
  - destruct (decide (n ∈ nodes g ∧ kind (node_at g n) ≠ kUndefined)) as [Ht|Ht].
    + split; [done|by eexists].
    + split; [by intros [? ?]|done].
  - intros d Hd.
    destruct (decide (n ∈ nodes g ∧ kind (node_at g n) ≠ kUndefined)); [|done].
    injection Hd as <-. split; [apply to_unsigned_range|].
    intros Hlen. rewrite storedDegree_small by done. lia.
Qed.

(** X11: on entry to the loop the worklist holds, in graph order, exactly the
    listed nodes whose degree-map entry is zero; the seeding scan leaves the
    degree map as [BuildDegreeMap] built it, and the ledger as it was. *)
Theorem initSched_seed (g : Graph) (users : gmap nat (list ExeResUser)) :
  worklist (fst (initSched g users))
  = filter (λ n, fst (BuildDegreeMap g) !! n = Some 0%Z) (nodes g)
  ∧ dmap (fst (initSched g users)) = fst (BuildDegreeMap g)
  ∧ m_ExeResUsers (fst (initSched g users)) = users
  ∧ snd (initSched g users) = snd (BuildDegreeMap g).
Proof.
  unfold initSched.
  pose proof (BuildDegreeMap_lookup g) as Hlook.
  destruct (BuildDegreeMap g) as [dm outs]. simpl in Hlook.
  unfold seedWorklist. rewrite seedWorklist_fold; cycle 1.
  { intros n Hn Hk. rewrite Hlook.
    destruct (decide (n ∈ nodes g ∧ kind (node_at g n) ≠ kUndefined)) as [_|Hc];
      [done|]. exfalso. by apply Hc. }
  simpl. split; [|done].
  apply list_filter_iff. intros n. split; [by intros [_ ?]|].
  intros Hz. split; [|done].
  rewrite Hlook in Hz. destruct (decide _) as [[_ ?]|_]; done.
Qed.

(** ** Boundary normalisation, step by step *)

Lemma InsertLoadStoreNode_eq (g : Graph) :
  InsertLoadStoreNode g
  = insertLoads g (graph_inputs g) ≫= λ g1, insertStores g1 (graph_outputs g1).
Proof. reflexivity. Qed.

Lemma firstUser_Some g (us : list Use) :
  ∀ f, ∃ t, foldl (λ first u,
                     match first with
                     | None => Some (user u)
                     | Some f => if negb (isBefore g f (user u))
                                 then Some (user u) else Some f
                     end) (Some f) us = Some t.
Proof.
  induction us as [|u us IH]; intros f; [by eexists|].
  simpl. destruct (negb (isBefore g f (user u))); apply IH.
Qed.

Lemma firstUser_None g (us : list Use) : firstUser g us = None ↔ us = [].
Proof.
  split; [|by intros ->].
  destruct us as [|u us]; [done|]. unfold firstUser. simpl.
  destruct (firstUser_Some g us (user u)) as [t ->]. done.
Qed.

Lemma lastUser_Some g (us : list Use) :
  ∀ l, ∃ t, foldl (λ last u,
                     match last with
                     | None => Some (user u)
                     | Some l => if isBefore g l (user u)
                                 then Some (user u) else Some l
                     end) (Some l) us = Some t.
Proof.
  induction us as [|u us IH]; intros l; [by eexists|].
  simpl. destruct (isBefore g l (user u)); apply IH.
Qed.

Lemma lastUser_None g (us : list Use) : lastUser g us = None ↔ us = [].
Proof.
  split; [|by intros ->].
  destruct us as [|u us]; [done|]. unfold lastUser. simpl.
  destruct (lastUser_Some g us (user u)) as [t ->]. done.
Qed.

Section ReplaceUses.
Context (nv : nat).

Lemma rebind_layout (us : list Use) : ∀ h, sameLayout h (foldl (rebind nv) h us).
Proof.
  induction us as [|u us IH]; intros h; [done|].
  simpl. destruct (IH (rebind nv h u)) as (H1 & H2 & H3 & H4 & H5).
  repeat split; [rewrite H1|rewrite H2|rewrite H3|rewrite H4|rewrite H5]; reflexivity.
Qed.

Lemma rebind_kind (us : list Use) :
  ∀ h n, kind (node_at (foldl (rebind nv) h us) n) = kind (node_at h n).
Proof.
  induction us as [|u us IH]; intros h n; [done|].
  simpl. rewrite IH. unfold rebind, addUse, replaceInput. simpl.
  destruct (decide (n = user u)) as [->|]; reflexivity.
Qed.

Lemma rebind_value (us : list Use) :
  ∀ h w, w ≠ nv → value_at (foldl (rebind nv) h us) w = value_at h w.
Proof.
  induction us as [|u us IH]; intros h w Hw; [done|].
  simpl. rewrite IH by done. unfold rebind, addUse, replaceInput. simpl.
  by rewrite decide_False.
Qed.
End ReplaceUses.

Lemma replaceAllUsesWith_unfold g v nv :
  replaceAllUsesWith g v nv
  = let g1 := foldl (rebind nv) g (uses (value_at g v)) in
    set_value g1 v (mkValue (uniqueName (value_at g1 v)) (node (value_at g1 v)) []
                            (elemType (value_at g1 v)) (sizes (value_at g1 v))).
Proof. reflexivity. Qed.

Lemma replaceAllUsesWith_layout g v nv : sameLayout g (replaceAllUsesWith g v nv).
Proof.
  rewrite replaceAllUsesWith_unfold.
  destruct (rebind_layout nv (uses (value_at g v)) g) as (H1 & H2 & H3 & H4 & H5).
  repeat split; simpl; done.
Qed.

Lemma replaceAllUsesWith_kind g v nv n :
  kind (node_at (replaceAllUsesWith g v nv) n) = kind (node_at g n).
Proof. rewrite replaceAllUsesWith_unfold. simpl. apply rebind_kind. Qed.

Lemma replaceAllUsesWith_value g v nv w :
  w ≠ v → w ≠ nv → value_at (replaceAllUsesWith g v nv) w = value_at g w.
Proof.
  intros Hv Hnv. rewrite replaceAllUsesWith_unfold. simpl.
  rewrite decide_False by done. by apply rebind_value.
Qed.

Lemma replaceAllUsesWith_cleared g v nv :
  uses (value_at (replaceAllUsesWith g v nv) v) = [].
Proof.
  rewrite replaceAllUsesWith_unfold. simpl. by rewrite decide_True.
Qed.

(** What a successful [insertLoad] changes. *)
Lemma insertLoad_Some g v g' :
  insertLoad g v = Some g' →
  ∃ t i,
    firstUser g (uses (value_at g v)) = Some t
    ∧ position g t = Some i
    ∧ nodes g' = take i (nodes g) ++ next_node g :: drop i (nodes g)
    ∧ return_node g' = return_node g
    ∧ graph_inputs g' = graph_inputs g
    ∧ next_node g' = S (next_node g)
    ∧ next_value g' = S (next_value g)
    ∧ (∀ n, kind (node_at g' n)
            = if decide (n = next_node g) then "Load" else kind (node_at g n))
    ∧ (∀ w, w ≠ v → w ≠ next_value g → value_at g' w = value_at g w)
    ∧ uses (value_at g' v) = [].
Proof.
  unfold insertLoad. intros Hins.
  destruct (firstUser g (uses (value_at g v))) as [t|] eqn:Hfirst; [|done].
  unfold create in Hins. cbn [imap foldl] in Hins.
  unfold insertBefore in Hins. cbn [mbind option_bind] in Hins.
  change (position (set_value _ _ _) t) with (position g t) in Hins.
  destruct (position g t) as [i|] eqn:Hpos; [|done].
  cbn [mbind option_bind] in Hins.
  unfold output in Hins. simpl in Hins.
  rewrite decide_True in Hins by done. simpl in Hins.
  injection Hins as <-.
  exists t, i. split; [done|]. split; [done|].
  match goal with |- context [replaceAllUsesWith ?h v ?nv] =>
    destruct (replaceAllUsesWith_layout h v nv) as (H1 & H2 & H3 & H4 & H5) end.
  split; [by rewrite H1|]. split; [by rewrite H2|]. split; [by rewrite H3|].
  split; [by rewrite H4|]. split; [by rewrite H5|].
  split; [|split].
  - intros n. rewrite replaceAllUsesWith_kind. simpl.
    destruct (decide (n = next_node g)); reflexivity.
  - intros w Hv Hout. rewrite replaceAllUsesWith_value by done. simpl.
    by rewrite !decide_False.
  - apply replaceAllUsesWith_cleared.
Qed.

(** What a successful [insertStore] changes. *)
Lemma insertStore_Some g v g' :
  insertStore g v = Some g' →
  ∃ t i,
    lastUser g (uses (value_at g v)) = Some t
    ∧ position g t = Some i
    ∧ nodes g' = take i (nodes g) ++ next_node g :: drop i (nodes g)
    ∧ return_node g' = return_node g
    ∧ graph_inputs g' = graph_inputs g
    ∧ next_node g' = S (next_node g)
    ∧ next_value g' = S (next_value g)
    ∧ (∀ n, kind (node_at g' n)
            = if decide (n = next_node g) then "Store" else kind (node_at g n))
    ∧ inputs (node_at g' (next_node g)) = [v].
Proof.
  unfold insertStore. intros Hins.
  unfold create in Hins. cbn [imap foldl] in Hins.
  unfold output in Hins. simpl in Hins.
  rewrite decide_True in Hins by done. simpl in Hins.
  unfold insertBefore in Hins.
  destruct (lastUser g (uses (value_at g v))) as [t|] eqn:Hlast; [|done].
  cbn [mbind option_bind] in Hins.
  change (position (copyMetadata _ _ _) t) with (position g t) in Hins.
  destruct (position g t) as [i|] eqn:Hpos; [|done].
  cbn [mbind option_bind] in Hins. injection Hins as <-.
  exists t, i. simpl. repeat split; try done.
  - intros n. destruct (decide (n = next_node g)); reflexivity.
  - by rewrite decide_True.
Qed.

Lemma insertLoad_insertedOne g v g' :
  insertLoad g v = Some g' → insertedOne "Load" g g'.
Proof.
  intros H. apply insertLoad_Some in H
    as (t & i & _ & _ & Hn & Hr & Hi & Hnn & _ & Hk & _).
  split; [by exists i|done].
Qed.

Lemma insertStore_insertedOne g v g' :
  insertStore g v = Some g' → insertedOne "Store" g g'.
Proof.
  intros H. apply insertStore_Some in H
    as (t & i & _ & _ & Hn & Hr & Hi & Hnn & _ & Hk & _).
  split; [by exists i|done].
Qed.

Lemma bind_fold_None {A B} (f : A → B → option A) (l : list B) :
  foldl (λ acc v, acc ≫= λ h, f h v) None l = None.
Proof. induction l; simpl; done. Qed.

Lemma bind_fold_cons {A B} (f : A → B → option A) (a : A) (v : B) (l : list B) :
  foldl (λ acc v, acc ≫= λ h, f h v) (Some a) (v :: l)
  = f a v ≫= λ h, foldl (λ acc v, acc ≫= λ h, f h v) (Some h) l.
Proof.
  simpl. destruct (f a v); simpl; [done|apply bind_fold_None].
Qed.

Lemma insertedMany_fold (k : string) (step : Graph → nat → option Graph) :
  (∀ g v g', step g v = Some g' → insertedOne k g g') →
  ∀ vs g g',
    foldl (λ acc v, acc ≫= λ h, step h v) (Some g) vs = Some g' →
    insertedMany k (length vs) g g'.
Proof.
  intros Hstep vs. induction vs as [|v vs IH]; intros g g' Hfold.
  - injection Hfold as <-. unfold insertedMany. simpl.
    rewrite app_nil_r, Nat.add_0_r. repeat split; try done. intros n Hn. lia.
  - rewrite bind_fold_cons in Hfold.
    destruct (step g v) as [h|] eqn:Hh; [|done]. simpl in Hfold.
    destruct (Hstep g v h Hh) as ([i Hi] & Hr & Hin & Hnn & Hk).
    destruct (IH h g' Hfold) as (Hsub & Hperm & Hr' & Hin' & Hnn' & Hold & Hnew).
    assert (Hsub1 : sublist (nodes g) (nodes h)).
    { rewrite Hi. rewrite <- (take_drop i (nodes g)) at 1.
      apply sublist_app; [done|]. by apply sublist_cons. }
    assert (Hperm1 : nodes h ≡ₚ next_node g :: nodes g).
    { rewrite Hi. rewrite <- (take_drop i (nodes g)) at 3.
      by rewrite Permutation_middle. }
    unfold insertedMany. simpl length.
    split; [by etrans|].
    split.
    { rewrite Hperm, Hperm1, Hnn. simpl.
      rewrite <- Permutation_middle. done. }
    split; [by rewrite Hr'|]. split; [by rewrite Hin'|].
    split; [lia|]. split.
    + intros n Hn. rewrite Hold by lia. rewrite Hk.
      rewrite decide_False by lia. done.
    + intros n Hn. destruct (decide (n = next_node g)) as [->|Hne].
      * rewrite Hold by lia. rewrite Hk. by rewrite decide_True.
      * apply Hnew. lia.
Qed.

Lemma insertedMany_trans k1 k2 m1 m2 g g1 g2 :
  insertedMany k1 m1 g g1 → insertedMany k2 m2 g1 g2 →
  sublist (nodes g) (nodes g2)
  ∧ nodes g2 ≡ₚ nodes g ++ seq (next_node g) (m1 + m2)
  ∧ return_node g2 = return_node g
  ∧ graph_inputs g2 = graph_inputs g
  ∧ (∀ n, n < next_node g → kind (node_at g2 n) = kind (node_at g n))
  ∧ (∀ n, next_node g ≤ n < next_node g + m1 → kind (node_at g2 n) = k1)
  ∧ (∀ n, next_node g + m1 ≤ n < next_node g + m1 + m2 →
          kind (node_at g2 n) = k2).
Proof.
  intros (Hs1 & Hp1 & Hr1 & Hi1 & Hn1 & Ho1 & Hk1)
         (Hs2 & Hp2 & Hr2 & Hi2 & Hn2 & Ho2 & Hk2).
  split; [by etrans|]. split.
  { rewrite Hp2, Hp1, Hn1, seq_app, app_assoc. done. }
  split; [congruence|]. split; [congruence|]. split; [|split].
  - intros n Hn. rewrite Ho2 by lia. by apply Ho1.
  - intros n Hn. rewrite Ho2 by lia. by apply Hk1.
  - intros n Hn. apply Hk2. lia.
Qed.

(** X12: a successful [InsertLoadStoreNode] keeps every existing node, in the
    same order, and adds exactly one node per graph input and one per graph
    output (the outputs as they are after the loads were put in), at fresh
    addresses; the terminal node and the graph inputs stay what they were. *)
Theorem InsertLoadStoreNode_nodes (g g' : Graph) :
  InsertLoadStoreNode g = Some g' →
  ∃ g1,
    insertLoads g (graph_inputs g) = Some g1
    ∧ sublist (nodes g) (nodes g')
    ∧ nodes g'
      ≡ₚ nodes g ++ seq (next_node g)
                        (length (graph_inputs g) + length (graph_outputs g1))
    ∧ return_node g' = return_node g
    ∧ graph_inputs g' = graph_inputs g.
Proof.
  rewrite InsertLoadStoreNode_eq. intros Hins.
  destruct (insertLoads g (graph_inputs g)) as [g1|] eqn:Hloads; [|done].
  simpl in Hins. exists g1. split; [done|].
  pose proof (insertedMany_fold "Load" insertLoad insertLoad_insertedOne
                _ _ _ Hloads) as H1.
  pose proof (insertedMany_fold "Store" insertStore insertStore_insertedOne
                _ _ _ Hins) as H2.
  destruct (insertedMany_trans _ _ _ _ _ _ _ H1 H2) as (? & ? & ? & ? & _).
  done.
Qed.

(** X13: a successful [InsertLoadStoreNode] changes the kind of no existing
    node; the nodes it adds are Load nodes, one per graph input, followed in
    address order by Store nodes, one per graph output. *)
Theorem InsertLoadStoreNode_kinds (g g' : Graph) :
  InsertLoadStoreNode g = Some g' →
  ∃ g1,
    insertLoads g (graph_inputs g) = Some g1
    ∧ (∀ n, n < next_node g → kind (node_at g' n) = kind (node_at g n))
    ∧ (∀ n, next_node g ≤ n < next_node g + length (graph_inputs g) →
            kind (node_at g' n) = "Load")
    ∧ (∀ n, next_node g + length (graph_inputs g) ≤ n
            < next_node g + length (graph_inputs g) + length (graph_outputs g1) →
            kind (node_at g' n) = "Store").
Proof.
  rewrite InsertLoadStoreNode_eq. intros Hins.
  destruct (insertLoads g (graph_inputs g)) as [g1|] eqn:Hloads; [|done].
  simpl in Hins. exists g1. split; [done|].
  pose proof (insertedMany_fold "Load" insertLoad insertLoad_insertedOne
                _ _ _ Hloads) as H1.
  pose proof (insertedMany_fold "Store" insertStore insertStore_insertedOne
                _ _ _ Hins) as H2.
  destruct (insertedMany_trans _ _ _ _ _ _ _ H1 H2) as (_ & _ & _ & _ & ? & ? & ?).
  done.
Qed.

Lemma InsertLoadStoreNode_graphIO :
  InsertLoadStoreNode Scenario.graphIO = Some Scenario.graphIONormal.
Proof. vm_compute. reflexivity. Defined.

Lemma InsertLoadStoreNode_nodes_witness :
  ∃ g1,
    insertLoads Scenario.graphIO (graph_inputs Scenario.graphIO) = Some g1
    ∧ sublist (nodes Scenario.graphIO) (nodes Scenario.graphIONormal)
    ∧ nodes Scenario.graphIONormal
      ≡ₚ nodes Scenario.graphIO
         ++ seq (next_node Scenario.graphIO)
                (length (graph_inputs Scenario.graphIO) + length (graph_outputs g1))
    ∧ return_node Scenario.graphIONormal = return_node Scenario.graphIO
    ∧ graph_inputs Scenario.graphIONormal = graph_inputs Scenario.graphIO.
Proof.
  exact (InsertLoadStoreNode_nodes Scenario.graphIO Scenario.graphIONormal
           InsertLoadStoreNode_graphIO).
Defined.

Lemma InsertLoadStoreNode_kinds_witness :
  ∃ g1,
    insertLoads Scenario.graphIO (graph_inputs Scenario.graphIO) = Some g1
    ∧ (∀ n, n < next_node Scenario.graphIO →
            kind (node_at Scenario.graphIONormal n)
            = kind (node_at Scenario.graphIO n))
    ∧ (∀ n, next_node Scenario.graphIO ≤ n
            < next_node Scenario.graphIO + length (graph_inputs Scenario.graphIO) →
            kind (node_at Scenario.graphIONormal n) = "Load")
    ∧ (∀ n, next_node Scenario.graphIO + length (graph_inputs Scenario.graphIO) ≤ n
            < next_node Scenario.graphIO + length (graph_inputs Scenario.graphIO)
              + length (graph_outputs g1) →
            kind (node_at Scenario.graphIONormal n) = "Store").
Proof.
  exact (InsertLoadStoreNode_kinds Scenario.graphIO Scenario.graphIONormal
           InsertLoadStoreNode_graphIO).
Defined.

Example InsertLoadStoreNode_graphIO_nodes :
  nodes Scenario.graphIONormal = [2; 1; 3]
  ∧ inputs (node_at Scenario.graphIONormal 1) = [8]
  ∧ inputs (node_at Scenario.graphIONormal 3) = [7]
  ∧ uses (value_at Scenario.graphIONormal 5) = []
  ∧ HasInsertedLoadStoreNode Scenario.graphIONormal = true.
Proof. vm_compute. repeat split; reflexivity. Qed.

(** ** A graph input that nothing uses *)

Lemma insertLoad_unused g v :
  uses (value_at g v) = [] → insertLoad g v = None.
Proof.
  intros Hu. unfold insertLoad. rewrite Hu.
  unfold create. cbn [imap foldl]. reflexivity.
Qed.

Lemma insertLoads_unused (vs : list nat) :
  ∀ g w, w ∈ vs → w < next_value g → uses (value_at g w) = [] →
         insertLoads g vs = None.
Proof.
  induction vs as [|v vs IH]; intros g w Hin Hw Hu; [by apply elem_of_nil in Hin|].
  unfold insertLoads. rewrite bind_fold_cons.
  destruct (insertLoad g v) as [h|] eqn:Hh; [|done]. simpl.
  apply insertLoad_Some in Hh
    as (t & i & Hfirst & _ & _ & _ & _ & _ & Hnv & _ & Hval & Hcl).
  destruct (decide (w = v)) as [->|Hne].
  - apply (firstUser_None g) in Hu. congruence.
  - apply elem_of_cons in Hin as [?|Hin]; [done|].
    apply (IH h w Hin); [lia|]. rewrite Hval; [done|done|lia].
Qed.

(** X14: with a backend bound, if some graph input (an allocated value) has
    no use, [runOnModule] runs into [insertBefore(nullptr)]: the run is
    undefined, whatever else the graph contains. *)
Theorem runOnModule_unused_input (fuel : nat) (p : PassState)
    (tb : DLATargetBackend) (v : nat) :
  pass_DLATB p = Some tb →
  v ∈ graph_inputs (pass_graph p) →
  v < next_value (pass_graph p) →
  uses (value_at (pass_graph p) v) = [] →
  InsertLoadStoreNode (pass_graph p) = None
  ∧ runOnModule fuel p = Undefined.
Proof.
  intros Htb Hin Hv Hu.
  assert (Hnone : InsertLoadStoreNode (pass_graph p) = None).
  { rewrite InsertLoadStoreNode_eq.
    by rewrite (insertLoads_unused _ _ v Hin Hv Hu). }
  split; [done|].
  unfold runOnModule. rewrite Htb. unfold normalize, clear. simpl.
  by rewrite Hnone.
Qed.

Lemma runOnModule_unused_input_witness :
  InsertLoadStoreNode Scenario.graphUnused = None
  ∧ runOnModule 3 (mkPass (Some Scenario.tenUnits) ∅ Scenario.graphUnused [] [])
    = Undefined.
Proof.
  apply (runOnModule_unused_input 3
           (mkPass (Some Scenario.tenUnits) ∅ Scenario.graphUnused [] [])
           Scenario.tenUnits 5).
  - reflexivity.
  - by left.
  - vm_compute. lia.
  - reflexivity.
Defined.

(** ** What [runOnModule] reports *)

Lemma InsertLoadStoreNode_grows g g' :
  InsertLoadStoreNode g = Some g' →
  length (nodes g) + length (graph_inputs g) ≤ length (nodes g').
Proof.
  rewrite InsertLoadStoreNode_eq. intros Hins.
  destruct (insertLoads g (graph_inputs g)) as [g1|] eqn:Hloads; [|done].
  simpl in Hins.
  pose proof (insertedMany_fold "Load" insertLoad insertLoad_insertedOne
                _ _ _ Hloads) as H1.
  pose proof (insertedMany_fold "Store" insertStore insertStore_insertedOne
                _ _ _ Hins) as H2.
  destruct (insertedMany_trans _ _ _ _ _ _ _ H1 H2) as (_ & Hperm & _).
  rewrite Hperm, length_app, length_seq. lia.
Qed.

(** X15: whenever [runOnModule] returns with a backend bound, it reports
    [kModuleNoChanged], although the graph it leaves behind is the normalised
    one, with at least one node more per graph input; the error stream is
    untouched and the output stream has gained the degree-map warnings. *)
Theorem runOnModule_reports_no_change (fuel : nat) (p p' : PassState)
    (r : ReturnType) :
  pass_DLATB p ≠ None →
  runOnModule fuel p = Returns r p' →
  r = kModuleNoChanged
  ∧ InsertLoadStoreNode (pass_graph p) = Some (pass_graph p')
  ∧ length (nodes (pass_graph p)) + length (graph_inputs (pass_graph p))
    ≤ length (nodes (pass_graph p'))
  ∧ pass_errs p' = pass_errs p
  ∧ pass_outs p' = pass_outs p ++ snd (BuildDegreeMap (pass_graph p')).
Proof.
  intros Htb Hrun. unfold runOnModule in Hrun.
  destruct (pass_DLATB p) as [tb|]; [|done].
  unfold normalize, clear in Hrun. simpl in Hrun.
  destruct (InsertLoadStoreNode (pass_graph p)) as [g|] eqn:Hins; [|done].
  pose proof (initSched_seed g ∅) as (_ & _ & _ & Houts).
  destruct (initSched g ∅) as [st outs]. simpl in Houts. subst outs.
  destruct (scheduleLoop tb g fuel st) as [st'| |]; [|done|done].
  injection Hrun as <- <-. simpl.
  split; [done|]. split; [done|]. split; [|done].
  by apply InsertLoadStoreNode_grows.
Qed.

Lemma runOnModule_reports_no_change_witness :
  ∃ p',
    runOnModule 3 (mkPass (Some Scenario.tenUnits) ∅ Scenario.graphIO [] [])
    = Returns kModuleNoChanged p'
    ∧ InsertLoadStoreNode Scenario.graphIO = Some (pass_graph p')
    ∧ length (nodes Scenario.graphIO) + length (graph_inputs Scenario.graphIO)
      ≤ length (nodes (pass_graph p'))
    ∧ pass_errs p' = []
    ∧ pass_outs p' = [] ++ snd (BuildDegreeMap (pass_graph p')).
Proof.
  eexists. split; [vm_compute; reflexivity|].
  refine (proj2 (runOnModule_reports_no_change 3
            (mkPass (Some Scenario.tenUnits) ∅ Scenario.graphIO [] []) _
            kModuleNoChanged _ _)).
  - discriminate.
  - vm_compute. reflexivity.
Defined.

(** ** A whole run with room for every node *)

Section WholeRun.
Context (tb : DLATargetBackend) (g : Graph).

Lemma round_ledgerHolds st st' :
  round tb g st = Some st' → ledgerHolds tb st → ledgerHolds tb st'.
Proof.
  intros Hround Hold n Hn.
  destruct (round_history tb g st st' Hround)
    as (next & kept & new & Hpass & _ & _ & Hadm).
  rewrite (admitPass_ledger tb _ _ _ _ _ Hpass (queryExeResType tb n)).
  rewrite Hadm in Hn. rewrite elem_of_app.
  apply elem_of_app in Hn as [Hn|Hn]; [left; by apply Hold|right].
  apply (list_elem_of_fmap_2 (λ n, mkUser n (to_unsigned (getOperatorCost tb n)))).
  by apply list_elem_of_filter.
Qed.

Lemma reaches_ledgerHolds st st' :
  reaches tb g st st' → ledgerHolds tb st → ledgerHolds tb st'.
Proof.
  induction 1 as [st|st st1 st2 Hwl Hround Hreach IH]; intros Hold; [done|].
  apply IH. by eapply round_ledgerHolds.
Qed.
End WholeRun.

(** X16: a run on a graph whose normalised form is well formed and in
    topological order, with every user tracked and room for every node in
    every resource class, returns [kModuleNoChanged] within as many rounds as
    the normalised graph has nodes; at that point every node that is neither
    undefined nor terminal occupies a unit of its resource class (nothing was
    ever released), and no class holds more users than it has units. *)
Theorem runOnModule_terminates (p : PassState) (tb : DLATargetBackend) (g : Graph) :
  pass_DLATB p = Some tb →
  normalize (pass_graph p) = Some g →
  wellFormed g → usesTracked g → producersFirst g → amplyProvisioned tb g →
  ∃ p',
    runOnModule (length (nodes g)) p = Returns kModuleNoChanged p'
    ∧ pass_graph p' = g
    ∧ withinCapacity tb (pass_ExeResUsers p')
    ∧ ∀ u, u ∈ nodes g →
           kind (node_at g u) ≠ kUndefined → kind (node_at g u) ≠ kReturn →
           mkUser u (to_unsigned (getOperatorCost tb u))
           ∈ default [] (pass_ExeResUsers p' !! queryExeResType tb u).
Proof.
  intros Htb Hnorm Hwf Huses Htopo Hcap.
  destruct (initSched_inv g Hwf ∅) as (Hinit & _ & Hadm).
  pose proof (initSched_ledger g ∅) as Hledger.
  destruct (scheduleLoop_finishes tb g Hwf Huses Hcap (length (nodes g))
              (fst (initSched g ∅)) Hinit) as [st' Hrun].
  { intros r. rewrite Hledger, lookup_empty. simpl. lia. }
  { lia. }
  destruct (scheduleLoop_reaches tb g _ _ _ Hrun) as [Hreach Hdone].
  unfold runOnModule. rewrite Htb.
  change (pass_graph (clear p)) with (pass_graph p). rewrite Hnorm.
  change (pass_ExeResUsers (clear p)) with (∅ : gmap nat (list ExeResUser)).
  destruct (initSched g ∅) as [st outs] eqn:Hst. simpl in *.
  rewrite Hrun. eexists. split; [reflexivity|]. simpl.
  split; [done|]. split.
  - apply (reaches_capacity tb g st st' Hreach).
    rewrite Hledger. apply withinCapacity_empty.
  - intros u Hu Hku Hkr.
    apply (reaches_ledgerHolds tb g st st' Hreach).
    + intros n Hn. rewrite Hadm in Hn. by apply elem_of_nil in Hn.
    + apply list_elem_of_lookup_1 in Hu as [i Hi].
      apply (finished_admits_all g st' Htopo
               (reaches_inv tb g Hwf st st' Hreach Hinit) Hdone i u Hi Hku Hkr).
Qed.

Lemma normalize_graphIO : normalize Scenario.graphIO = Some Scenario.graphIONormal.
Proof. vm_compute. reflexivity. Defined.

Lemma runOnModule_terminates_witness :
  ∃ p',
    runOnModule (length (nodes Scenario.graphIONormal))
                (mkPass (Some Scenario.tenUnits) ∅ Scenario.graphIO [] [])
    = Returns kModuleNoChanged p'
    ∧ pass_graph p' = Scenario.graphIONormal
    ∧ withinCapacity Scenario.tenUnits (pass_ExeResUsers p')
    ∧ ∀ u, u ∈ nodes Scenario.graphIONormal →
           kind (node_at Scenario.graphIONormal u) ≠ kUndefined →
           kind (node_at Scenario.graphIONormal u) ≠ kReturn →
           mkUser u (to_unsigned (getOperatorCost Scenario.tenUnits u))
           ∈ default [] (pass_ExeResUsers p' !! queryExeResType Scenario.tenUnits u).
Proof.
  apply (runOnModule_terminates
           (mkPass (Some Scenario.tenUnits) ∅ Scenario.graphIO [] [])
           Scenario.tenUnits Scenario.graphIONormal).
  - reflexivity.
  - exact normalize_graphIO.
  - split.
    + refine (bool_decide_unpack _ _). vm_compute. exact I.
    + refine (bool_decide_unpack _ _). vm_compute. exact I.
    + refine (bool_decide_unpack _ _). vm_compute. exact I.
  - refine (bool_decide_unpack _ _). vm_compute. exact I.
  - refine (bool_decide_unpack _ _). vm_compute. exact I.
  - refine (bool_decide_unpack _ _). vm_compute. exact I.
Defined.

(** ** Admission, class by class *)

Section PerClass.
Context (tb : DLATargetBackend).

Lemma hasFreeUnit_freeUnits (m : gmap nat (list ExeResUser)) r :
  hasFreeUnit tb m r ↔ 0 < freeUnits tb m r.
Proof. unfold hasFreeUnit, freeUnits. lia. Qed.

Lemma freeUnits_addExeResUser (m : gmap nat (list ExeResUser)) res n r :
  freeUnits tb (addExeResUser tb m res n) r
  = if decide (res = r) then freeUnits tb m r - 1 else freeUnits tb m r.
Proof.
  unfold freeUnits. rewrite addExeResUser_default, length_app.
  destruct (decide (res = r)); simpl; lia.
Qed.

Lemma freeUnits_initEntry (m : gmap nat (list ExeResUser)) res r :
  freeUnits tb (initEntry m res) r = freeUnits tb m r.
Proof. unfold freeUnits. by rewrite initEntry_default. Qed.

Lemma admitPass_per_class m cands next kept m' :
  admitPass tb m cands next kept m' →
  ∀ r, filter (λ n, queryExeResType tb n = r) next
       = take (freeUnits tb m r) (filter (λ n, queryExeResType tb n = r) cands).
Proof.
  induction 1 as [m|m n cands next kept m' Hfree Hpass IH
                   |m n cands next kept m' Hfree Hpass IH]; intros r.
  - rewrite !filter_nil. by rewrite take_nil.
  - apply hasFreeUnit_freeUnits in Hfree.
    specialize (IH r). rewrite freeUnits_addExeResUser in IH.
    destruct (decide (queryExeResType tb n = r)) as [Heq|Hne].
    + rewrite !filter_cons_True by done. rewrite IH. subst r.
      destruct (freeUnits tb m (queryExeResType tb n)) as [|k]; [lia|].
      simpl. by rewrite Nat.sub_0_r.
    + by rewrite !filter_cons_False.
  - specialize (IH r). rewrite freeUnits_initEntry in IH.
    destruct (decide (queryExeResType tb n = r)) as [Heq|Hne].
    + rewrite filter_cons_True by done. rewrite IH. subst r.
      assert (freeUnits tb m (queryExeResType tb n) = 0) as ->.
      { destruct (freeUnits tb m (queryExeResType tb n)) eqn:Hf; [done|].
        exfalso. apply Hfree, hasFreeUnit_freeUnits. lia. }
      by rewrite !take_0.
    + by rewrite filter_cons_False.
Qed.

(** X17: from each resource class, [greedyPickNextNodes] admits exactly the
    first candidates of that class in worklist order, as many as the class
    has free units; candidates of other classes have no influence. *)
Theorem greedyPickNextNodes_per_class (m : gmap nat (list ExeResUser))
    (pCands next kept : list nat) (m' : gmap nat (list ExeResUser)) (r : nat) :
  greedyPickNextNodes tb m pCands = Some (next, kept, m') →
  filter (λ n, queryExeResType tb n = r) next
  = take (N.to_nat (numUnits tb r) - length (default [] (m !! r)))
         (filter (λ n, queryExeResType tb n = r) pCands).
Proof.
  intros Hpick.
  apply (admitPass_per_class m pCands next kept m').
  by apply greedyPickNextNodes_admitPass_inv.
Qed.
End PerClass.

Lemma greedyPickNextNodes_per_class_witness :
  filter (λ n, queryExeResType Scenario.oneUnit n = Scenario.R) [Scenario.A]
  = take (N.to_nat (numUnits Scenario.oneUnit Scenario.R)
          - length (default [] ((∅ : gmap nat (list ExeResUser)) !! Scenario.R)))
         (filter (λ n, queryExeResType Scenario.oneUnit n = Scenario.R)
                 [Scenario.A; Scenario.B]).
Proof.
  apply (greedyPickNextNodes_per_class Scenario.oneUnit ∅
           [Scenario.A; Scenario.B] [Scenario.A] [Scenario.B]
           {[ Scenario.R := [mkUser Scenario.A 5] ]} Scenario.R).
  vm_compute. reflexivity.
Defined.

(** X18: [updateResList] keeps the ledger within capacity: it has the same
    resource classes as before and no class has more users than units. *)
Theorem updateResList_withinCapacity (tb : DLATargetBackend)
    (m : gmap nat (list ExeResUser)) :
  withinCapacity tb m →
  withinCapacity tb (fst (updateResList m))
  ∧ ∀ r, is_Some (fst (updateResList m) !! r) ↔ is_Some (m !! r).
Proof.
  intros Hm. split.
  - intros res l Hl. simpl in Hl. rewrite lookup_fmap in Hl.
    destruct (m !! res) as [l0|] eqn:H0; [|done].
    simpl in Hl. injection Hl as <-.
    pose proof (updateUserList_length (findMinCycle m) l0).
    pose proof (Hm res l0 H0). lia.
  - intros r. simpl. rewrite lookup_fmap. by rewrite fmap_is_Some.
Qed.

Lemma updateResList_withinCapacity_witness :
  withinCapacity Scenario.tenUnits Scenario.ledger53
  ∧ withinCapacity Scenario.tenUnits (fst (updateResList Scenario.ledger53))
  ∧ ∀ r, is_Some (fst (updateResList Scenario.ledger53) !! r)
         ↔ is_Some (Scenario.ledger53 !! r).
Proof.
  assert (H : withinCapacity Scenario.tenUnits Scenario.ledger53).
  { intros r l Hr. unfold Scenario.ledger53 in Hr.
    apply lookup_singleton_Some in Hr as [_ <-]. vm_compute. discriminate. }
  split; [exact H|].
  exact (updateResList_withinCapacity Scenario.tenUnits Scenario.ledger53 H).
Defined.
